(** * Maxwell-Boltzmann simulation: kinetics engine and distribution model

    A shallow embedding of [src/components/SimulationCanvas.js] (the
    particle engine: [handleCollision], [updateParticles]) and of
    [src/components/MBDistributionChart.js] (the density [mbDistribution]
    and the summary quantities computed from the sampled curve).

    JavaScript numbers are modelled as exact real numbers extended with the
    three special values of IEEE arithmetic ([NaN], [+Infinity],
    [-Infinity]).  Rounding, overflow and the sign of zero are not
    modelled: a finite operation on finite operands yields the exact real
    result, and special values arise only where the JavaScript operation
    itself produces them from exact operands (division by zero, square root
    of a negative number, ...). *)

From Stdlib Require Import Reals Lra Lia.
From stdpp Require Import base decidable list.

Open Scope R_scope.

(** ** JavaScript numbers *)

Inductive num : Type :=
  | Fin (r : R)
  | PInf
  | NInf
  | NaN.

Inductive sgn : Type := Neg | Zero | Pos.

#[global] Instance Rlt_decision : RelDecision Rlt := Rlt_dec.
#[global] Instance Rle_decision : RelDecision Rle := Rle_dec.
#[global] Instance Req_decision : EqDecision R := Req_dec_T.

Definition Rsgn (r : R) : sgn :=
  if decide (0 < r) then Pos else if decide (r < 0) then Neg else Zero.

Definition sgn_mul (s t : sgn) : sgn :=
  match s, t with
  | Zero, _ | _, Zero => Zero
  | Pos, Pos | Neg, Neg => Pos
  | Pos, Neg | Neg, Pos => Neg
  end.

(** The infinity of a given sign; an undetermined sign ([0 * Infinity],
    [0 / 0]) is [NaN]. *)
Definition inf_of (s : sgn) : num :=
  match s with Pos => PInf | Neg => NInf | Zero => NaN end.

Definition num_sgn (a : num) : sgn :=
  match a with Fin r => Rsgn r | PInf => Pos | NInf => Neg | NaN => Zero end.

Module JS.

Definition neg (a : num) : num :=
  match a with
  | Fin r => Fin (- r)
  | PInf => NInf
  | NInf => PInf
  | NaN => NaN
  end.

Definition add (a b : num) : num :=
  match a, b with
  | NaN, _ | _, NaN => NaN
  | Fin r, Fin s => Fin (r + s)
  | PInf, NInf | NInf, PInf => NaN
  | PInf, _ | _, PInf => PInf
  | NInf, _ | _, NInf => NInf
  end.

Definition sub (a b : num) : num := add a (neg b).

Definition mul (a b : num) : num :=
  match a, b with
  | NaN, _ | _, NaN => NaN
  | Fin r, Fin s => Fin (r * s)
  | _, _ => inf_of (sgn_mul (num_sgn a) (num_sgn b))
  end.

(** [a / b].  A finite nonzero number divided by zero is an infinity,
    [0 / 0] is [NaN]. *)
Definition div (a b : num) : num :=
  match a, b with
  | NaN, _ | _, NaN => NaN
  | Fin r, Fin s => if decide (s = 0) then inf_of (Rsgn r) else Fin (r / s)
  | Fin _, _ => Fin 0
  | _, Fin s =>
      inf_of (sgn_mul (num_sgn a) (if decide (s < 0) then Neg else Pos))
  | _, _ => NaN
  end.

(** [a < b]; every comparison with [NaN] is false. *)
Definition lt (a b : num) : bool :=
  match a, b with
  | NaN, _ | _, NaN => false
  | Fin r, Fin s => bool_decide (r < s)
  | _, NInf => false
  | PInf, _ => false
  | NInf, _ => true
  | Fin _, PInf => true
  end.

Definition gt (a b : num) : bool := lt b a.

(** [a <= b]. *)
Definition le (a b : num) : bool :=
  match a, b with
  | NaN, _ | _, NaN => false
  | Fin r, Fin s => bool_decide (r <= s)
  | NInf, _ => true
  | _, PInf => true
  | _, NInf => false
  | PInf, _ => false
  end.

Definition ge (a b : num) : bool := le b a.

(** [a === b] on numbers. *)
Definition strict_eq (a b : num) : bool :=
  match a, b with
  | Fin r, Fin s => bool_decide (r = s)
  | PInf, PInf | NInf, NInf => true
  | _, _ => false
  end.

(** Truthiness of a number: [0] and [NaN] are falsy. *)
Definition truthy (a : num) : bool :=
  match a with
  | Fin r => bool_decide (r <> 0)
  | PInf | NInf => true
  | NaN => false
  end.

(** [a || b] on numbers. *)
Definition or (a b : num) : num := if truthy a then a else b.

(** [Math.sqrt]. *)
Definition sqrt (a : num) : num :=
  match a with
  | Fin r => if decide (r < 0) then NaN else Fin (R_sqrt.sqrt r)
  | PInf => PInf
  | NInf | NaN => NaN
  end.

(** [Math.abs]. *)
Definition abs (a : num) : num :=
  match a with
  | Fin r => Fin (Rabs r)
  | PInf | NInf => PInf
  | NaN => NaN
  end.

(** [Math.exp]. *)
Definition exp (a : num) : num :=
  match a with
  | Fin r => Fin (Rtrigo_def.exp r)
  | PInf => PInf
  | NInf => Fin 0
  | NaN => NaN
  end.

(** [Math.pow(a, 1.5)], the only exponent the program uses: a negative
    base with a non-integer exponent is [NaN]. *)
Definition pow_1_5 (a : num) : num :=
  match a with
  | Fin r =>
      if decide (0 < r) then Fin (Rpower r 1.5)
      else if decide (r < 0) then NaN else Fin 0
  | PInf | NInf => PInf
  | NaN => NaN
  end.

(** [Math.cos] and [Math.sin]. *)
Definition cos (a : num) : num :=
  match a with
  | Fin r => Fin (Rtrigo_def.cos r)
  | _ => NaN
  end.

Definition sin (a : num) : num :=
  match a with
  | Fin r => Fin (Rtrigo_def.sin r)
  | _ => NaN
  end.

(** [Math.round]: the nearest integer, a half rounded up. *)
Definition round (a : num) : num :=
  match a with
  | Fin r => Fin (IZR (Int_part (r + 0.5)))
  | _ => a
  end.

End JS.

Declare Scope js_scope.
Delimit Scope js_scope with J.
Infix "+" := JS.add : js_scope.
Infix "-" := JS.sub : js_scope.
Infix "*" := JS.mul : js_scope.
Infix "/" := JS.div : js_scope.
Notation "- a" := (JS.neg a) : js_scope.
Infix "<?" := JS.lt (at level 70) : js_scope.
Infix ">?" := JS.gt (at level 70) : js_scope.
Infix "<=?" := JS.le (at level 70) : js_scope.
Infix ">=?" := JS.ge (at level 70) : js_scope.
Infix "===" := JS.strict_eq (at level 70) : js_scope.
Infix "||" := JS.or : js_scope.

Coercion Fin : R >-> num.

(** ** SimulationCanvas.js: the kinetics engine *)

Definition width : num := Fin 400.
Definition height : num := Fin 400.
Definition baseSpeedFactor : num := Fin 0.5.
Definition restitution : num := Fin 0.9.

Record particle : Type := Particle {
  x : num;
  y : num;
  vx : num;
  vy : num;
  radius : num
}.

Definition set_pos (p : particle) (x' y' : num) : particle :=
  Particle x' y' (vx p) (vy p) (radius p).

Definition set_vel (p : particle) (vx' vy' : num) : particle :=
  Particle (x p) (y p) vx' vy' (radius p).

(** [handleCollision(p1, p2)]: the two objects are mutated in place; the
    function returns the pair of their new states. *)
Definition handleCollision (p1 p2 : particle) : particle * particle :=
  (let dx := x p2 - x p1 in
   let dy := y p2 - y p1 in
   let dist := JS.sqrt (dx * dx + dy * dy) in
   if dist === Fin 0 then (p1, p2) else
   let nx := dx / dist in
   let ny := dy / dist in
   let dvx := vx p2 - vx p1 in
   let dvy := vy p2 - vy p1 in
   let relVel := dvx * nx + dvy * ny in
   if relVel >? Fin 0 then (p1, p2) else
   let impulse := - (Fin 1 + restitution) * relVel / Fin 2 in
   (set_vel p1 (vx p1 - impulse * nx) (vy p1 - impulse * ny),
    set_vel p2 (vx p2 + impulse * nx) (vy p2 + impulse * ny)))%J.

(** The quantities [handleCollision] computes from a pair: centre
    distance and relative velocity along the centre line. *)
Definition centreDist (p1 p2 : particle) : num :=
  (let dx := x p2 - x p1 in
   let dy := y p2 - y p1 in
   JS.sqrt (dx * dx + dy * dy))%J.

Definition relNormalVel (p1 p2 : particle) : num :=
  (let dx := x p2 - x p1 in
   let dy := y p2 - y p1 in
   let dist := JS.sqrt (dx * dx + dy * dy) in
   let nx := dx / dist in
   let ny := dy / dist in
   let dvx := vx p2 - vx p1 in
   let dvy := vy p2 - vy p1 in
   dvx * nx + dvy * ny)%J.

(** *** One animation frame: [updateParticles] *)

(** "Update positions." *)
Definition integrate (ps : list particle) : list particle :=
  map (fun p => set_pos p (x p + vx p)%J (y p + vy p)%J) ps.

(** "Wall collisions.", horizontal then vertical test of one particle. *)
Definition wallX (p : particle) : particle :=
  (if x p - radius p <? Fin 0 then
     Particle (radius p) (y p) (JS.abs (vx p)) (vy p) (radius p)
   else if x p + radius p >? width then
     Particle (width - radius p) (y p) (- JS.abs (vx p)) (vy p) (radius p)
   else p)%J.

Definition wallY (p : particle) : particle :=
  (if y p - radius p <? Fin 0 then
     Particle (x p) (radius p) (vx p) (JS.abs (vy p)) (radius p)
   else if y p + radius p >? height then
     Particle (x p) (height - radius p) (vx p) (- JS.abs (vy p)) (radius p)
   else p)%J.

Definition wallCollisions (ps : list particle) : list particle :=
  map (fun p => wallY (wallX p)) ps.

(** Body of the inner loop of "Particle collisions." for the objects
    [p1 = particles[i]] and [p2 = particles[j]]. *)
Definition collidePair (p1 p2 : particle) : particle * particle :=
  (let dx := x p2 - x p1 in
   let dy := y p2 - y p1 in
   let dist := JS.sqrt (dx * dx + dy * dy) in
   if dist <? radius p1 + radius p2 then
     let '(q1, q2) := handleCollision p1 p2 in
     let overlap := radius q1 + radius q2 - dist in
     let sepX := (dx / dist) * (overlap / Fin 2) in
     let sepY := (dy / dist) * (overlap / Fin 2) in
     (set_pos q1 (x q1 - sepX) (y q1 - sepY),
      set_pos q2 (x q2 + sepX) (y q2 + sepY))
   else (p1, p2))%J.

(** The pair [(i, j)] of the array is resolved and both objects are
    written back. *)
Definition pairStep (i j : nat) (ps : list particle) : list particle :=
  match ps !! i, ps !! j with
  | Some p1, Some p2 =>
      let '(q1, q2) := collidePair p1 p2 in <[j := q2]> (<[i := q1]> ps)
  | _, _ => ps
  end.

(** [for (let j = i + 1; j < particles.length; j++)]. *)
Definition innerLoop (i : nat) (ps : list particle) : list particle :=
  foldl (fun acc j => pairStep i j acc) ps (seq (S i) (length ps - S i)).

(** [for (let i = 0; i < particles.length; i++)]. *)
Definition particleCollisions (ps : list particle) : list particle :=
  foldl (fun acc i => innerLoop i acc) ps (seq 0 (length ps)).

(** "Thermostat: rescale velocities to maintain desired average speed." *)
Definition speed (p : particle) : num :=
  JS.sqrt (vx p * vx p + vy p * vy p)%J.

Definition sumSpeed (ps : list particle) : num :=
  foldl (fun s p => (s + speed p)%J) (Fin 0) ps.

Definition avgSpeed (ps : list particle) : num :=
  (sumSpeed ps / Fin (INR (length ps)))%J.

Definition desiredAvgSpeed (T : num) : num :=
  (baseSpeedFactor * JS.sqrt T)%J.

Definition scale (T : num) (ps : list particle) : num :=
  (desiredAvgSpeed T / (avgSpeed ps || Fin 1))%J.

Definition thermostat (T : num) (ps : list particle) : list particle :=
  map (fun p => set_vel p (vx p * scale T ps)%J (vy p * scale T ps)%J) ps.

(** The state part of [updateParticles]; drawing on the canvas is not
    modelled. *)
Definition updateParticles (T : num) (ps : list particle) : list particle :=
  thermostat T (particleCollisions (wallCollisions (integrate ps))).

(** [n] successive animation frames at temperature [T]. *)
Fixpoint frames (T : num) (n : nat) (ps : list particle) : list particle :=
  match n with
  | O => ps
  | S k => updateParticles T (frames T k ps)
  end.

(** *** The initialisation effect: creation of the ensemble *)

Definition numParticles : nat := 50.

(** One iteration of the creation loop of the initialisation effect; [rx], [ry]
    and [ra] are the results of its three calls of [Math.random()], and
    [T] is [tempRef.current]. *)
Definition newParticle (T rx ry ra : num) : particle :=
  (let x := rx * width in
   let y := ry * height in
   let angle := ra * Fin 2 * Fin PI in
   let speed := baseSpeedFactor * JS.sqrt T in
   let vx := speed * JS.cos angle in
   let vy := speed * JS.sin angle in
   let radius := Fin 5 in
   Particle x y vx vy radius)%J.

(** "Initialize particles only once.": the effect fills the array when it
    is empty and leaves it alone otherwise.  [random k] is the result of
    the [k]-th call of [Math.random()]. *)
Definition initParticles
    (T : num) (random : nat -> num) (current : list particle)
  : list particle :=
  if (length current =? 0)%nat then
    map (fun i : nat =>
           newParticle T (random (3 * i)%nat) (random (3 * i + 1)%nat)
                       (random (3 * i + 2)%nat))
        (seq 0 numParticles)
  else current.

(** ** MBDistributionChart.js: the distribution model *)

Module Chart.

(** A point [{ x: E, y: f }] of a dataset. *)
Record point : Type := Point { x : num; y : num }.

(** [Array.from({ length: N + 1 }, (_, i) => i)] with [N = 600]. *)
Definition energies : list num :=
  map (fun i : nat => Fin (INR i)) (seq 0 (600 + 1)).

Definition totalParticles : num := Fin 50.

Definition effectiveTemperature (T : num) : num := (Fin 0.5 * T + Fin 50)%J.

Definition sharpness : num := Fin 2.

Definition mbDistribution (E T : num) : num :=
  (let T_eff := effectiveTemperature T in
   if T_eff <=? Fin 0 then Fin 0 else
   let norm := (Fin 2 / JS.sqrt (Fin PI)) * JS.pow_1_5 (sharpness / T_eff) in
   Fin 0.72 * norm * JS.sqrt E * JS.exp (- E / T_eff) * totalParticles)%J.

(** [energies.map((E) => ({ x: E, y: mbDistribution(E, temperature) }))]. *)
Definition dynamicData (temperature : num) : list point :=
  map (fun E => Point E (mbDistribution E temperature)) energies.

(** The sums [sumE] and [sumF] of Effect 3, accumulated by one [forEach]. *)
Definition sums (data : list point) : num * num :=
  foldl (fun '(sumE, sumF) pt => (sumE + x pt * y pt, sumF + y pt)%J)
        (Fin 0, Fin 0) data.

(** [E_mean] of Effect 3 (computed when [showAverage] is on). *)
Definition E_mean (temperature : num) : num :=
  let '(sumE, sumF) := sums (dynamicData temperature) in
  if JS.truthy sumF then (sumE / sumF)%J else Fin 0.

(** [data.reduce((sum, pt) => sum + pt.y, 0)]. *)
Definition area (data : list point) : num :=
  foldl (fun sum pt => (sum + y pt)%J) (Fin 0) data.

(** [percentageAbove] of [handleRecordData], before it is formatted by
    [toFixed(2)]. *)
Definition percentageAbove (showCatalyst : bool) (temperature : num) : num :=
  let dynamicData := dynamicData temperature in
  let totalArea := area dynamicData in
  let threshold := if showCatalyst then Fin 300 else Fin 400 in
  let regionArea :=
    area (List.filter (fun pt => (x pt >=? threshold)%J) dynamicData) in
  if JS.truthy totalArea then (regionArea / totalArea * Fin 100)%J else Fin 0.

(** The loop that finds the most probable energy, in Effect 3 and again
    in [handleRecordData]: the final values of [maxY] and [E_mode]. *)
Definition mostProbable (temperature : num) : num * num :=
  foldl (fun '(maxY, E_mode) pt =>
           if (y pt >? maxY)%J then (y pt, x pt) else (maxY, E_mode))
        (NInf, nth 0 energies NaN) (dynamicData temperature).

(** The channels [red], [0] and [blue] that [getColorForTemperature]
    writes into the string [rgb(red,0,blue)]. *)
Definition getColorForTemperature (T : num) : num * num * num :=
  (let ratio := (T - Fin 100) / (Fin 500 - Fin 100) in
   let red := JS.round (ratio * Fin 255) in
   let blue := JS.round ((Fin 1 - ratio) * Fin 255) in
   (red, Fin 0, blue))%J.

End Chart.

(** * Vocabulary of the properties *)

(** ** Real-valued quantities of a pair of particles

    Centre distance, unit normal, relative velocity along the normal,
    impulse and half of the overlap, for particles at [(x1, y1)] and
    [(x2, y2)] with velocities [(u1, v1)], [(u2, v2)] and radii [r1],
    [r2]. *)

Definition dist_R (x1 y1 x2 y2 : R) : R :=
  sqrt ((x2 - x1) * (x2 - x1) + (y2 - y1) * (y2 - y1)).

Definition nx_R (x1 y1 x2 y2 : R) : R := (x2 - x1) / dist_R x1 y1 x2 y2.

Definition ny_R (x1 y1 x2 y2 : R) : R := (y2 - y1) / dist_R x1 y1 x2 y2.

Definition relVel_R (x1 y1 u1 v1 x2 y2 u2 v2 : R) : R :=
  (u2 - u1) * nx_R x1 y1 x2 y2 + (v2 - v1) * ny_R x1 y1 x2 y2.

Definition impulse_R (x1 y1 u1 v1 x2 y2 u2 v2 : R) : R :=
  - (1 + 0.9) * relVel_R x1 y1 u1 v1 x2 y2 u2 v2 / 2.

Definition halfOverlap_R (x1 y1 r1 x2 y2 r2 : R) : R :=
  (r1 + r2 - dist_R x1 y1 x2 y2) / 2.

(** ** Predicates on particles and ensembles *)

(** All five fields of the particle hold finite numbers. *)
Definition finite (p : particle) : Prop :=
  exists a b u v r : R, p = Particle a b u v r.

(** Both velocity components are finite numbers. *)
Definition finite_vel (p : particle) : Prop :=
  exists u v : R, vx p = Fin u /\ vy p = Fin v.

(** The particle has the radius every particle is created with. *)
Definition radius5 (p : particle) : Prop := radius p = Fin 5.

(** The centre lies in [[radius, W - radius] x [radius, H - radius]] for
    [W = H = 400] and [radius = 5]. *)
Definition in_box (p : particle) : Prop :=
  exists a b : R,
    x p = Fin a /\ y p = Fin b /\
    5 <= a <= 400 - 5 /\ 5 <= b <= 400 - 5.

(** No pair [i < j] passes the overlap test of the collision loop. *)
Definition no_overlap (ps : list particle) : Prop :=
  forall (i j : nat) (p q : particle),
    (i < j)%nat -> ps !! i = Some p -> ps !! j = Some q ->
    (centreDist p q <? radius p + radius q)%J = false.

(** Both velocity components are exactly zero. *)
Definition at_rest (p : particle) : Prop := vx p = Fin 0 /\ vy p = Fin 0.

(** ** Real-valued quantities of the thermostat *)

Definition speed_R (p : particle) : R :=
  match vx p, vy p with
  | Fin u, Fin v => sqrt (u * u + v * v)
  | _, _ => 0
  end.

Fixpoint sumSpeed_R (ps : list particle) : R :=
  match ps with
  | [] => 0
  | p :: ps => speed_R p + sumSpeed_R ps
  end.

(** The mean speed as the specification words it: the arithmetic mean of
    the particles' speed magnitudes [sqrt (vx^2 + vy^2)]. *)
Definition meanSpeed_R (ps : list particle) : R :=
  sumSpeed_R ps / INR (length ps).

(** Speeds of ordinary magnitude: the squares the thermostat sums
    neither underflow nor overflow in a double, so that exact arithmetic
    speaks for the code. *)
Definition speed_min : R := 1e-150.
Definition speed_max : R := 1e150.

(** The value of [avgSpeed || 1] for a non-empty ensemble of particles
    with finite velocities. *)
Definition divisor_R (ps : list particle) : R :=
  if decide (sumSpeed_R ps / INR (length ps) = 0) then 1
  else sumSpeed_R ps / INR (length ps).

(** ** The density as the specification words it, on real numbers *)

Definition T_eff_R (T : R) : R := 0.5 * T + 50.

Definition density_spec (E T : R) : R :=
  if decide (T_eff_R T <= 0) then 0
  else 0.72 * (2 / sqrt PI) * Rpower (2 / T_eff_R T) 1.5 * sqrt E
       * exp (- E / T_eff_R T) * 50.

Fixpoint Rsum (l : list R) : R :=
  match l with
  | [] => 0
  | a :: l => a + Rsum l
  end.

(** The dataset [{ x: E, y: f }] that the chart builds at temperature [T]
    from the sample energies [l], with the density on real numbers. *)
Definition sampled (T : R) (l : list nat) : list Chart.point :=
  map (fun i : nat => Chart.Point (INR i) (density_spec (INR i) T)) l.

(** Sums over the 601 sampled energies [0, 1, ..., 600]. *)
Definition total_density (T : R) : R :=
  sum_f_R0 (fun i => density_spec (INR i) T) 600.

Definition weighted_density (T : R) : R :=
  sum_f_R0 (fun i => INR i * density_spec (INR i) T) 600.

Definition density_above (threshold T : R) : R :=
  sum_f_R0 (fun i => if decide (threshold <= INR i)
                     then density_spec (INR i) T else 0) 600.

(** ** Vocabulary of the further properties *)

(** The radius is a finite number. *)
Definition finite_rad (p : particle) : Prop := exists r : R, radius p = Fin r.

Definition vx_R (p : particle) : R :=
  match vx p with Fin u => u | _ => 0 end.

Definition vy_R (p : particle) : R :=
  match vy p with Fin v => v | _ => 0 end.

(** Total momentum of the ensemble (unit masses), per axis. *)
Definition momentumX_R (ps : list particle) : R := Rsum (map vx_R ps).
Definition momentumY_R (ps : list particle) : R := Rsum (map vy_R ps).

(** What the collision pass keeps: finite velocities, the radii, the
    size of the ensemble and the total momentum. *)
Definition pass_invariant (ps0 ps : list particle) : Prop :=
  Forall finite_vel ps /\ map radius ps = map radius ps0
  /\ momentumX_R ps = momentumX_R ps0 /\ momentumY_R ps = momentumY_R ps0.

(** [Math.random()] returns a number in [[0, 1)]. *)
Definition unit_interval (a : num) : Prop :=
  exists r : R, a = Fin r /\ 0 <= r < 1.

(** The position lies in the canvas [[0, 400) x [0, 400)]. *)
Definition on_canvas (p : particle) : Prop :=
  exists a b : R, x p = Fin a /\ y p = Fin b /\ 0 <= a < 400 /\ 0 <= b < 400.

(** The factor of the density that does not depend on the energy. *)
Definition density_scale (T : R) : R :=
  0.72 * (2 / sqrt PI) * Rpower (2 / T_eff_R T) 1.5 * 50.

(** ** Explicit ensembles *)

(** Two particles that have passed through each other next to the left
    wall. *)
Definition crossing : list particle :=
  [Particle 10 100 (-5) 0 5; Particle 3 100 5 0 5].

(** Two particles that the wall pass clamps into the same corner. *)
Definition cornered : list particle :=
  [Particle 2 2 (-1) (-1) 5; Particle 3 3 (-1) (-1) 5].

(** Three particles that are in a row after the position update, the
    middle one overlapping both neighbours. *)
Definition row : list particle :=
  [Particle 101 100 (-1) 0 5; Particle 108 99 0 1 5; Particle 109 100 1 0 5].

(** Two particles far from each other, the first one heading into the
    left wall. *)
Definition distant : list particle :=
  [Particle 2 200 (-3) 4 5; Particle 302 208 3 (-4) 5].

(** Two overlapping particles that approach each other head-on. *)
Definition headOn : list particle :=
  [Particle 0 0 1 0 5; Particle 8 0 (-1) 0 5].

(** * Properties *)

(** ** Arithmetic on finite numbers *)

Lemma sumsq_nonneg (a b : R) : 0 <= a * a + b * b.
Proof. nra. Qed.

Lemma sqrt_sumsq_zero (a b : R) : sqrt (a * a + b * b) = 0 -> a = 0 /\ b = 0.
Proof.
  intros H. apply sqrt_eq_0 in H; [|apply sumsq_nonneg]. split; nra.
Qed.

Lemma sqrt_of_square (a b : R) : 0 <= b -> a = b * b -> sqrt a = b.
Proof. intros Hb ->. now apply sqrt_square. Qed.

Lemma Rdiv_nonneg (a b : R) : 0 <= a -> 0 < b -> 0 <= a / b.
Proof.
  intros Ha Hb. apply Rmult_le_pos; [done|]. left. now apply Rinv_0_lt_compat.
Qed.

Lemma sqrt_PI_pos : 0 < sqrt PI.
Proof. apply sqrt_lt_R0, PI_RGT_0. Qed.

Lemma Fin_inj (r s : R) : Fin r = Fin s -> r = s.
Proof. now intros [= ->]. Qed.

Lemma js_add_fin (r s : R) : (Fin r + Fin s)%J = Fin (r + s).
Proof. reflexivity. Qed.

Lemma js_sub_fin (r s : R) : (Fin r - Fin s)%J = Fin (r - s).
Proof. reflexivity. Qed.

Lemma js_mul_fin (r s : R) : (Fin r * Fin s)%J = Fin (r * s).
Proof. reflexivity. Qed.

Lemma js_neg_fin (r : R) : (- Fin r)%J = Fin (- r).
Proof. reflexivity. Qed.

Lemma js_abs_fin (r : R) : JS.abs (Fin r) = Fin (Rabs r).
Proof. reflexivity. Qed.

Lemma js_exp_fin (r : R) : JS.exp (Fin r) = Fin (exp r).
Proof. reflexivity. Qed.

Lemma js_sqrt_fin (r : R) : 0 <= r -> JS.sqrt (Fin r) = Fin (sqrt r).
Proof. intros H. unfold JS.sqrt. rewrite decide_False; [done|lra]. Qed.

Lemma js_sqrt_sumsq (a b : R) :
  JS.sqrt (Fin (a * a + b * b)) = Fin (sqrt (a * a + b * b)).
Proof. apply js_sqrt_fin, sumsq_nonneg. Qed.

Lemma js_div_fin (r s : R) : s <> 0 -> (Fin r / Fin s)%J = Fin (r / s).
Proof. intros H. unfold JS.div. now rewrite decide_False. Qed.

Lemma js_div_zero_zero : (Fin 0 / Fin 0)%J = NaN.
Proof.
  unfold JS.div. rewrite decide_True by done.
  unfold Rsgn. now rewrite !decide_False by lra.
Qed.

Lemma js_pow_1_5_fin (r : R) :
  0 < r -> JS.pow_1_5 (Fin r) = Fin (Rpower r 1.5).
Proof. intros H. unfold JS.pow_1_5. now rewrite decide_True. Qed.

Lemma js_strict_eq_fin_false (r s : R) :
  r <> s -> (Fin r === Fin s)%J = false.
Proof. intros H. unfold JS.strict_eq. now rewrite bool_decide_eq_false. Qed.

Lemma js_strict_eq_fin_true (r : R) : (Fin r === Fin r)%J = true.
Proof. unfold JS.strict_eq. now rewrite bool_decide_eq_true. Qed.

Lemma js_lt_fin (r s : R) : (Fin r <? Fin s)%J = bool_decide (r < s).
Proof. reflexivity. Qed.

Lemma js_gt_fin (r s : R) : (Fin r >? Fin s)%J = bool_decide (s < r).
Proof. reflexivity. Qed.

Lemma js_le_fin (r s : R) : (Fin r <=? Fin s)%J = bool_decide (r <= s).
Proof. reflexivity. Qed.

Lemma js_ge_fin (r s : R) : (Fin r >=? Fin s)%J = bool_decide (s <= r).
Proof. reflexivity. Qed.

Lemma js_lt_fin_true (r s : R) : r < s -> (Fin r <? Fin s)%J = true.
Proof. intros H. now rewrite js_lt_fin, bool_decide_eq_true. Qed.

Lemma js_lt_fin_false (r s : R) : s <= r -> (Fin r <? Fin s)%J = false.
Proof. intros H. rewrite js_lt_fin, bool_decide_eq_false. lra. Qed.

Lemma js_gt_fin_true (r s : R) : s < r -> (Fin r >? Fin s)%J = true.
Proof. apply js_lt_fin_true. Qed.

Lemma js_gt_fin_false (r s : R) : r <= s -> (Fin r >? Fin s)%J = false.
Proof. apply js_lt_fin_false. Qed.

Lemma js_truthy_fin (r : R) : JS.truthy (Fin r) = bool_decide (r <> 0).
Proof. reflexivity. Qed.

Lemma js_or_fin (r s : R) :
  (Fin r || Fin s)%J = Fin (if decide (r = 0) then s else r).
Proof. unfold JS.or, JS.truthy. case_bool_decide; case_decide; done. Qed.

#[global] Arguments JS.add : simpl never.
#[global] Arguments JS.sub : simpl never.
#[global] Arguments JS.mul : simpl never.
#[global] Arguments JS.div : simpl never.
#[global] Arguments JS.neg : simpl never.
#[global] Arguments JS.sqrt : simpl never.
#[global] Arguments JS.abs : simpl never.
#[global] Arguments JS.lt : simpl never.
#[global] Arguments JS.gt : simpl never.
#[global] Arguments JS.strict_eq : simpl never.
#[global] Arguments handleCollision : simpl never.
#[global] Arguments collidePair : simpl never.

(** Total operations on finite operands are computed on the reals. *)
Ltac js_fin :=
  repeat (rewrite ?js_add_fin, ?js_sub_fin, ?js_mul_fin, ?js_neg_fin,
            ?js_abs_fin, ?js_sqrt_sumsq).

(** Comparisons of explicit finite numbers. *)
Ltac js_compare :=
  cbn [map x y vx vy radius set_pos set_vel];
  repeat (js_fin;
          first [ rewrite js_lt_fin_true by lra
                | rewrite js_lt_fin_false by lra
                | rewrite js_gt_fin_true by lra
                | rewrite js_gt_fin_false by lra ];
          cbn [map x y vx vy radius set_pos set_vel]).

(** ** [handleCollision] on particles with finite coordinates *)

Section Pair.

Variables x1 y1 u1 v1 r1 x2 y2 u2 v2 r2 : R.

Let p1 : particle := Particle x1 y1 u1 v1 r1.
Let p2 : particle := Particle x2 y2 u2 v2 r2.
Let D : R := dist_R x1 y1 x2 y2.
Let nx : R := nx_R x1 y1 x2 y2.
Let ny : R := ny_R x1 y1 x2 y2.
Let rel : R := relVel_R x1 y1 u1 v1 x2 y2 u2 v2.
Let J : R := impulse_R x1 y1 u1 v1 x2 y2 u2 v2.
Let h : R := halfOverlap_R x1 y1 r1 x2 y2 r2.

Lemma dist_R_nonneg : 0 <= D.
Proof. apply sqrt_pos. Qed.

Lemma centreDist_fin : centreDist p1 p2 = Fin D.
Proof. unfold centreDist. cbn. now js_fin. Qed.

Lemma normal_unit : D <> 0 -> nx * nx + ny * ny = 1.
Proof.
  intros Hd. unfold nx, ny, nx_R, ny_R. fold D.
  assert (Hsq : D * D = (x2 - x1) * (x2 - x1) + (y2 - y1) * (y2 - y1))
    by (apply sqrt_sqrt, sumsq_nonneg).
  field_simplify_eq; [|done]. lra.
Qed.

Lemma relNormalVel_fin : D <> 0 -> relNormalVel p1 p2 = Fin rel.
Proof.
  intros Hd. unfold relNormalVel. cbn. js_fin. fold (dist_R x1 y1 x2 y2) D.
  rewrite !js_div_fin by done. now js_fin.
Qed.

Lemma handleCollision_coincident : D = 0 -> handleCollision p1 p2 = (p1, p2).
Proof.
  intros Hd. unfold handleCollision. cbn. js_fin.
  fold (dist_R x1 y1 x2 y2) D. now rewrite Hd, js_strict_eq_fin_true.
Qed.

Lemma handleCollision_separating :
  D <> 0 -> 0 < rel -> handleCollision p1 p2 = (p1, p2).
Proof.
  intros Hd Hrel. unfold handleCollision. cbn. js_fin.
  fold (dist_R x1 y1 x2 y2) D. rewrite js_strict_eq_fin_false by done.
  rewrite !js_div_fin by done. js_fin.
  now rewrite js_gt_fin_true.
Qed.

Lemma handleCollision_impulse :
  D <> 0 -> rel <= 0 ->
  handleCollision p1 p2
  = (Particle x1 y1 (u1 - J * nx) (v1 - J * ny) r1,
     Particle x2 y2 (u2 + J * nx) (v2 + J * ny) r2).
Proof.
  intros Hd Hrel. unfold handleCollision. cbn. js_fin.
  fold (dist_R x1 y1 x2 y2) D. rewrite js_strict_eq_fin_false by done.
  rewrite !js_div_fin by done. js_fin.
  rewrite js_gt_fin_false by done.
  unfold restitution. js_fin. rewrite js_div_fin by lra.
  unfold set_vel; cbn. js_fin. done.
Qed.

(** Whatever branch [handleCollision] takes, it leaves positions and
    radii alone and produces finite velocities. *)
Lemma handleCollision_shape :
  exists a b c d : R,
    handleCollision p1 p2 = (Particle x1 y1 a b r1, Particle x2 y2 c d r2).
Proof.
  destruct (decide (D = 0)) as [Hd|Hd].
  - exists u1, v1, u2, v2. now apply handleCollision_coincident.
  - destruct (decide (0 < rel)) as [Hr|Hr].
    + exists u1, v1, u2, v2. now apply handleCollision_separating.
    + eexists _, _, _, _. apply handleCollision_impulse; [done|lra].
Qed.

(** ** The loop body [collidePair] on particles with finite coordinates *)

Lemma collidePair_apart : r1 + r2 <= D -> collidePair p1 p2 = (p1, p2).
Proof.
  intros H. unfold collidePair. cbn. js_fin. fold (dist_R x1 y1 x2 y2) D.
  now rewrite js_lt_fin_false.
Qed.

(** An overlapping pair at positive distance: each particle is moved by
    half of the overlap along the centre line, on the state
    [handleCollision] leaves. *)
Lemma collidePair_overlap (a b c d : R) :
  D <> 0 -> D < r1 + r2 ->
  handleCollision p1 p2 = (Particle x1 y1 a b r1, Particle x2 y2 c d r2) ->
  collidePair p1 p2
  = (Particle (x1 - nx * h) (y1 - ny * h) a b r1,
     Particle (x2 + nx * h) (y2 + ny * h) c d r2).
Proof.
  intros Hd Hov Hhc. unfold collidePair. cbn. js_fin.
  fold (dist_R x1 y1 x2 y2) D. rewrite js_lt_fin_true by done.
  rewrite Hhc. cbn. js_fin.
  rewrite !js_div_fin by (done || lra). now js_fin.
Qed.

(** Coincident centres: [handleCollision] returns at once, and the
    separation then computes [0 / 0]. *)
Lemma collidePair_coincident :
  D = 0 -> 0 < r1 + r2 ->
  collidePair p1 p2 = (Particle NaN NaN u1 v1 r1, Particle NaN NaN u2 v2 r2).
Proof.
  intros Hd Hov. unfold collidePair. cbn. js_fin.
  fold (dist_R x1 y1 x2 y2) D.
  rewrite handleCollision_coincident by done. rewrite Hd.
  rewrite js_lt_fin_true by done. cbn. js_fin.
  apply sqrt_sumsq_zero in Hd as [-> ->].
  rewrite !js_div_zero_zero. rewrite js_div_fin by lra. done.
Qed.

(** After the separation the centres of an overlapping pair are exactly
    [r1 + r2] apart. *)
Lemma separated_dist :
  D <> 0 -> D < r1 + r2 ->
  dist_R (x1 - nx * h) (y1 - ny * h) (x2 + nx * h) (y2 + ny * h) = r1 + r2.
Proof.
  intros Hd Hov.
  assert (0 <= D) by apply dist_R_nonneg.
  assert (Hn : nx * nx + ny * ny = 1) by now apply normal_unit.
  assert (Hx : x2 - x1 = nx * D) by (unfold nx, nx_R; fold D; now field).
  assert (Hy : y2 - y1 = ny * D) by (unfold ny, ny_R; fold D; now field).
  unfold dist_R at 1. apply sqrt_of_square; [lra|].
  replace (x2 + nx * h - (x1 - nx * h)) with (nx * (r1 + r2))
    by (unfold h, halfOverlap_R; fold D; lra).
  replace (y2 + ny * h - (y1 - ny * h)) with (ny * (r1 + r2))
    by (unfold h, halfOverlap_R; fold D; lra).
  transitivity ((nx * nx + ny * ny) * ((r1 + r2) * (r1 + r2))); [ring|].
  rewrite Hn. ring.
Qed.

End Pair.

(** The same facts with the centre distance given by its square, the form
    in which they are used on explicit coordinates. *)
Section PairAt.

Variables x1 y1 u1 v1 r1 x2 y2 u2 v2 r2 d : R.
Hypothesis d_nonneg : 0 <= d.
Hypothesis d_square :
  d * d = (x2 - x1) * (x2 - x1) + (y2 - y1) * (y2 - y1).

Let p1 : particle := Particle x1 y1 u1 v1 r1.
Let p2 : particle := Particle x2 y2 u2 v2 r2.

Lemma dist_R_at : dist_R x1 y1 x2 y2 = d.
Proof. unfold dist_R. apply sqrt_of_square; [done|]. now rewrite d_square. Qed.

Lemma collidePair_apart_at : r1 + r2 <= d -> collidePair p1 p2 = (p1, p2).
Proof. intros H. apply collidePair_apart. now rewrite dist_R_at. Qed.

Lemma collidePair_separating_at :
  0 < d -> d < r1 + r2 ->
  0 < (u2 - u1) * (x2 - x1) + (v2 - v1) * (y2 - y1) ->
  collidePair p1 p2
  = (Particle (x1 - (x2 - x1) / d * ((r1 + r2 - d) / 2))
              (y1 - (y2 - y1) / d * ((r1 + r2 - d) / 2)) u1 v1 r1,
     Particle (x2 + (x2 - x1) / d * ((r1 + r2 - d) / 2))
              (y2 + (y2 - y1) / d * ((r1 + r2 - d) / 2)) u2 v2 r2).
Proof.
  intros Hd Hov Hrel.
  assert (HD := dist_R_at).
  assert (Hsep : 0 < relVel_R x1 y1 u1 v1 x2 y2 u2 v2).
  { unfold relVel_R, nx_R, ny_R. rewrite HD.
    replace ((u2 - u1) * ((x2 - x1) / d) + (v2 - v1) * ((y2 - y1) / d))
      with (((u2 - u1) * (x2 - x1) + (v2 - v1) * (y2 - y1)) / d)
      by (field; lra).
    apply Rdiv_lt_0_compat; lra. }
  assert (Hhc : handleCollision p1 p2 = (p1, p2))
    by (apply handleCollision_separating; [rewrite HD; lra | exact Hsep]).
  unfold p1, p2 in *.
  rewrite (collidePair_overlap _ _ _ _ _ _ _ _ _ _ u1 v1 u2 v2);
    rewrite ?HD; [|lra|lra|exact Hhc].
  unfold nx_R, ny_R, halfOverlap_R. now rewrite HD.
Qed.

Lemma collidePair_coincident_at :
  d = 0 -> 0 < r1 + r2 ->
  collidePair p1 p2 = (Particle NaN NaN u1 v1 r1, Particle NaN NaN u2 v2 r2).
Proof.
  intros Hd Hov. apply collidePair_coincident; [|done]. now rewrite dist_R_at.
Qed.

End PairAt.

(** Resolving one pair of finite particles whose centres do not coincide
    leaves it at least [r1 + r2] apart. *)
Lemma collidePair_separates (x1 y1 u1 v1 r1 x2 y2 u2 v2 r2 : R) :
  dist_R x1 y1 x2 y2 <> 0 ->
  exists a1 b1 c1 e1 a2 b2 c2 e2 : R,
    collidePair (Particle x1 y1 u1 v1 r1) (Particle x2 y2 u2 v2 r2)
    = (Particle a1 b1 c1 e1 r1, Particle a2 b2 c2 e2 r2)
    /\ r1 + r2 <= dist_R a1 b1 a2 b2
    /\ (dist_R x1 y1 x2 y2 < r1 + r2 -> dist_R a1 b1 a2 b2 = r1 + r2).
Proof.
  intros Hd0.
  destruct (decide (dist_R x1 y1 x2 y2 < r1 + r2)) as [Hov|Hov].
  - destruct (handleCollision_shape x1 y1 u1 v1 r1 x2 y2 u2 v2 r2)
      as (a & b & c & e & Hhc).
    rewrite (collidePair_overlap _ _ _ _ _ _ _ _ _ _ a b c e) by done.
    eexists _, _, _, _, _, _, _, _. split; [reflexivity|].
    rewrite separated_dist by done. split; [lra|done].
  - rewrite collidePair_apart by lra.
    eexists _, _, _, _, _, _, _, _. split; [reflexivity|]. split; lra.
Qed.

(** ** Claims about [handleCollision] *)

(** C3.  For two particles at positive centre distance that overlap and
    approach each other (negative relative velocity along the centre
    line), [handleCollision] subtracts the impulse [J * n] from the first
    particle's velocity and adds the same [J * n] to the second one's,
    with [J = -(1 + 0.9) * relVel / 2], and afterwards the relative
    velocity along the same normal is [-0.9] times what it was. *)
Theorem handleCollision_restitution
    (x1 y1 u1 v1 r1 x2 y2 u2 v2 r2 d rel : R) :
  let p1 := Particle x1 y1 u1 v1 r1 in
  let p2 := Particle x2 y2 u2 v2 r2 in
  centreDist p1 p2 = Fin d -> 0 < d -> d < r1 + r2 ->
  relNormalVel p1 p2 = Fin rel -> rel < 0 ->
  let J := - (1 + 0.9) * rel / 2 in
  let nx := (x2 - x1) / d in
  let ny := (y2 - y1) / d in
  handleCollision p1 p2
  = (Particle x1 y1 (u1 - J * nx) (v1 - J * ny) r1,
     Particle x2 y2 (u2 + J * nx) (v2 + J * ny) r2)
  /\ relNormalVel (handleCollision p1 p2).1 (handleCollision p1 p2).2
     = (- restitution * Fin rel)%J.
Proof.
  intros p1 p2 Hd Hpos Hov Hrel Hneg J nx ny.
  unfold p1, p2 in *. rewrite centreDist_fin in Hd. apply Fin_inj in Hd.
  assert (Hd0 : dist_R x1 y1 x2 y2 <> 0) by lra.
  rewrite relNormalVel_fin in Hrel by done. apply Fin_inj in Hrel.
  assert (Hhc := handleCollision_impulse x1 y1 u1 v1 r1 x2 y2 u2 v2 r2 Hd0).
  rewrite Hrel in Hhc. specialize (Hhc ltac:(lra)).
  unfold impulse_R, nx_R, ny_R in Hhc. rewrite Hrel, Hd in Hhc.
  fold J nx ny in Hhc. rewrite Hhc. split; [done|]. cbn [fst snd].
  rewrite relNormalVel_fin by done. unfold restitution. js_fin. f_equal.
  assert (Hn := normal_unit x1 y1 x2 y2 Hd0).
  unfold relVel_R in *. unfold nx_R, ny_R in *. rewrite Hd in *.
  fold nx ny in Hn, Hrel |- *.
  transitivity (rel + 2 * J * (nx * nx + ny * ny)); [rewrite <- Hrel; ring|].
  rewrite Hn. unfold J. lra.
Qed.

Lemma handleCollision_restitution_witness :
  relNormalVel
    (handleCollision (Particle 0 0 1 0 5) (Particle 8 0 (-1) 0 5)).1
    (handleCollision (Particle 0 0 1 0 5) (Particle 8 0 (-1) 0 5)).2
  = (- restitution * Fin (-2))%J.
Proof.
  assert (HD : dist_R 0 0 8 0 = 8) by (apply dist_R_at; lra).
  apply (handleCollision_restitution 0 0 1 0 5 8 0 (-1) 0 5 8 (-2)).
  - rewrite centreDist_fin. now rewrite HD.
  - lra.
  - lra.
  - rewrite relNormalVel_fin by (rewrite HD; lra). f_equal.
    unfold relVel_R, nx_R, ny_R. rewrite HD. lra.
  - lra.
Defined.

(** C10.  Whatever branch it takes on two particles with finite
    coordinates, [handleCollision] changes the two velocities by opposite
    amounts, so the sum of the two velocity vectors is unchanged. *)
Theorem handleCollision_momentum (x1 y1 u1 v1 r1 x2 y2 u2 v2 r2 : R) :
  let p1 := Particle x1 y1 u1 v1 r1 in
  let p2 := Particle x2 y2 u2 v2 r2 in
  let q := handleCollision p1 p2 in
  (exists jx jy : R,
      q = (Particle x1 y1 (u1 - jx) (v1 - jy) r1,
           Particle x2 y2 (u2 + jx) (v2 + jy) r2))
  /\ (vx q.1 + vx q.2)%J = (vx p1 + vx p2)%J
  /\ (vy q.1 + vy q.2)%J = (vy p1 + vy p2)%J.
Proof.
  intros p1 p2 q.
  assert (Hq : exists jx jy : R,
             q = (Particle x1 y1 (u1 - jx) (v1 - jy) r1,
                  Particle x2 y2 (u2 + jx) (v2 + jy) r2)).
  { unfold q, p1, p2.
    destruct (decide (dist_R x1 y1 x2 y2 = 0)) as [Hd|Hd].
    - exists 0, 0. rewrite handleCollision_coincident by done.
      now rewrite !Rminus_0_r, !Rplus_0_r.
    - destruct (decide (0 < relVel_R x1 y1 u1 v1 x2 y2 u2 v2)) as [Hr|Hr].
      + exists 0, 0. rewrite handleCollision_separating by done.
        now rewrite !Rminus_0_r, !Rplus_0_r.
      + eexists _, _. apply handleCollision_impulse; [done|lra]. }
  split; [done|]. destruct Hq as (jx & jy & ->). cbn. js_fin.
  split; f_equal; lra.
Qed.

(** ** The ensemble *)

Lemma particleCollisions_two (p q : particle) :
  particleCollisions [p; q] = [(collidePair p q).1; (collidePair p q).2].
Proof.
  unfold particleCollisions, innerLoop, pairStep. cbn.
  now destruct (collidePair p q).
Qed.

Lemma particleCollisions_three (p q r : particle) :
  particleCollisions [p; q; r]
  = let pq := collidePair p q in
    let pr := collidePair pq.1 r in
    let qr := collidePair pq.2 pr.2 in
    [pr.1; qr.1; qr.2].
Proof.
  unfold particleCollisions, innerLoop, pairStep. cbn.
  destruct (collidePair p q) as [a b]. cbn.
  destruct (collidePair a r) as [a' c]. cbn.
  now destruct (collidePair b c).
Qed.

Lemma integrate_finite (ps : list particle) :
  Forall finite ps -> Forall finite (integrate ps).
Proof.
  intros H. apply Forall_fmap. eapply Forall_impl; [exact H|].
  intros p (a & b & u & v & r & ->). cbn. js_fin. now eexists _, _, _, _, _.
Qed.

Lemma integrate_radius5 (ps : list particle) :
  Forall radius5 ps -> Forall radius5 (integrate ps).
Proof.
  intros H. apply Forall_fmap. eapply Forall_impl; [exact H|]. now intros p Hp.
Qed.

Lemma wallX_finite (p : particle) : finite p -> finite (wallX p).
Proof.
  intros (a & b & u & v & r & ->). unfold wallX, width. cbn. js_fin.
  rewrite js_lt_fin, js_gt_fin.
  repeat case_bool_decide; js_fin; now eexists _, _, _, _, _.
Qed.

Lemma wallY_finite (p : particle) : finite p -> finite (wallY p).
Proof.
  intros (a & b & u & v & r & ->). unfold wallY, height. cbn. js_fin.
  rewrite js_lt_fin, js_gt_fin.
  repeat case_bool_decide; js_fin; now eexists _, _, _, _, _.
Qed.

Lemma wallX_radius (p : particle) : radius (wallX p) = radius p.
Proof. unfold wallX. now repeat case_match. Qed.

Lemma wallY_radius (p : particle) : radius (wallY p) = radius p.
Proof. unfold wallY. now repeat case_match. Qed.

(** The wall pass puts a finite particle of radius 5 into the box. *)
Lemma wall_in_box (p : particle) :
  finite p -> radius5 p -> in_box (wallY (wallX p)).
Proof.
  intros (a & b & u & v & r & ->) Hr. unfold radius5 in Hr. cbn in Hr.
  apply Fin_inj in Hr as ->.
  unfold wallX, wallY, width, height. cbn. js_fin.
  rewrite !js_lt_fin, !js_gt_fin.
  repeat case_bool_decide; cbn; js_fin; rewrite ?js_lt_fin, ?js_gt_fin;
    repeat case_bool_decide; cbn; js_fin;
    eexists _, _; (split; [reflexivity|]); (split; [reflexivity|]); lra.
Qed.

Lemma wallCollisions_finite (ps : list particle) :
  Forall finite ps -> Forall finite (wallCollisions ps).
Proof.
  intros H. apply Forall_fmap. eapply Forall_impl; [exact H|].
  intros p Hp. cbn. now apply wallY_finite, wallX_finite.
Qed.

Lemma wallCollisions_radius5 (ps : list particle) :
  Forall radius5 ps -> Forall radius5 (wallCollisions ps).
Proof.
  intros H. apply Forall_fmap. eapply Forall_impl; [exact H|].
  intros p Hp. unfold radius5 in *. cbn. now rewrite wallY_radius, wallX_radius.
Qed.

Lemma wallCollisions_in_box (ps : list particle) :
  Forall finite ps -> Forall radius5 ps -> Forall in_box (wallCollisions ps).
Proof.
  intros Hf Hr. apply Forall_fmap. apply Forall_lookup. intros i p Hi. cbn.
  apply wall_in_box.
  - eapply Forall_lookup in Hf; eauto.
  - eapply Forall_lookup in Hr; eauto.
Qed.

Lemma collidePair_no_overlap (p q : particle) :
  (centreDist p q <? radius p + radius q)%J = false ->
  collidePair p q = (p, q).
Proof. unfold centreDist, collidePair. cbn zeta. now intros ->. Qed.

Lemma pairStep_no_overlap (i j : nat) (ps : list particle) :
  no_overlap ps -> (i < j)%nat -> pairStep i j ps = ps.
Proof.
  intros Hno Hij. unfold pairStep.
  destruct (ps !! i) as [p|] eqn:Hi; [|done].
  destruct (ps !! j) as [q|] eqn:Hj; [|done].
  rewrite collidePair_no_overlap by eauto.
  now rewrite (list_insert_id ps i p), (list_insert_id ps j q).
Qed.

Lemma innerLoop_no_overlap (i : nat) (ps : list particle) :
  no_overlap ps -> innerLoop i ps = ps.
Proof.
  intros Hno. unfold innerLoop.
  assert (Hall : Forall (fun j => (i < j)%nat) (seq (S i) (length ps - S i)))
    by (apply Forall_forall; intros j Hj%list_elem_of_In%in_seq; lia).
  induction Hall as [|j js Hj _ IH]; [done|].
  cbn. now rewrite pairStep_no_overlap.
Qed.

(** Without an overlapping pair the collision pass changes nothing. *)
Lemma particleCollisions_no_overlap (ps : list particle) :
  no_overlap ps -> particleCollisions ps = ps.
Proof.
  intros Hno. unfold particleCollisions.
  induction (seq 0 (length ps)) as [|i rest IH]; [done|].
  cbn. now rewrite innerLoop_no_overlap.
Qed.

Lemma no_overlap_two (p q : particle) :
  (centreDist p q <? radius p + radius q)%J = false -> no_overlap [p; q].
Proof.
  intros H i j p' q' Hij Hi Hj.
  destruct i as [|[|i]], j as [|[|j]]; try lia; cbn in Hi, Hj; try done.
  now injection Hi as <-; injection Hj as <-.
Qed.

(** The thermostat touches velocities only. *)
Lemma thermostat_positions (T : num) (ps : list particle) :
  map x (thermostat T ps) = map x ps /\ map y (thermostat T ps) = map y ps
  /\ map radius (thermostat T ps) = map radius ps.
Proof. unfold thermostat. now rewrite <- !list_fmap_compose. Qed.

Lemma thermostat_in_box (T : num) (ps : list particle) :
  Forall in_box ps -> Forall in_box (thermostat T ps).
Proof.
  intros H. apply Forall_fmap. eapply Forall_impl; [exact H|].
  intros p (a & b & Ha & Hb & Hab). now exists a, b.
Qed.

Lemma thermostat_radius5 (T : num) (ps : list particle) :
  Forall radius5 ps -> Forall radius5 (thermostat T ps).
Proof.
  intros H. apply Forall_fmap. eapply Forall_impl; [exact H|]. now intros p Hp.
Qed.

Lemma escape_left (ps : list particle) (i : nat) (a : R) :
  map x ps !! i = Some (Fin a) -> a < 5 -> ~ Forall in_box ps.
Proof.
  intros Hi Ha Hall. rewrite list_lookup_fmap in Hi.
  destruct (ps !! i) as [p|] eqn:Hp; [|done]. cbn in Hi.
  eapply Forall_lookup in Hall as (a' & b' & Hx & _ & Hbox & _); [|exact Hp].
  assert (a = a') by (apply Fin_inj; congruence). lra.
Qed.

(** *** The speed sum of particles with finite velocities *)

Lemma finite_finite_vel (p : particle) : finite p -> finite_vel p.
Proof. intros (a & b & u & v & r & ->). now exists u, v. Qed.

Lemma Forall_finite_vel (ps : list particle) :
  Forall finite ps -> Forall finite_vel ps.
Proof. intros H. eapply Forall_impl; [exact H|]. apply finite_finite_vel. Qed.

Lemma speed_fin (p : particle) : finite_vel p -> speed p = Fin (speed_R p).
Proof.
  intros (u & v & Hu & Hv). unfold speed, speed_R. rewrite Hu, Hv.
  now js_fin.
Qed.

Lemma speed_R_nonneg (p : particle) : 0 <= speed_R p.
Proof. unfold speed_R. repeat case_match; try lra; apply sqrt_pos. Qed.

Lemma sumSpeed_R_nonneg (ps : list particle) : 0 <= sumSpeed_R ps.
Proof.
  induction ps as [|p ps IH]; cbn [sumSpeed_R]; [lra|].
  pose proof (speed_R_nonneg p). lra.
Qed.

Lemma sumSpeed_fin_from (ps : list particle) (s : R) :
  Forall finite_vel ps ->
  foldl (fun s p => (s + speed p)%J) (Fin s) ps = Fin (s + sumSpeed_R ps).
Proof.
  intros H. revert s.
  induction H as [|p ps Hp _ IH]; intros s; cbn [foldl sumSpeed_R].
  - f_equal. lra.
  - rewrite speed_fin by done. js_fin. rewrite IH. f_equal. lra.
Qed.

Lemma sumSpeed_fin (ps : list particle) :
  Forall finite_vel ps -> sumSpeed ps = Fin (sumSpeed_R ps).
Proof.
  intros H. unfold sumSpeed. rewrite sumSpeed_fin_from by done. f_equal. lra.
Qed.

Lemma length_INR_pos (ps : list particle) : ps <> [] -> 0 < INR (length ps).
Proof. intros H. apply lt_0_INR. destruct ps; [done|cbn; lia]. Qed.

Lemma divisor_R_pos (ps : list particle) : ps <> [] -> 0 < divisor_R ps.
Proof.
  intros Hne. unfold divisor_R. case_decide as Hz; [lra|].
  pose proof (length_INR_pos ps Hne). pose proof (sumSpeed_R_nonneg ps).
  assert (0 <= sumSpeed_R ps / INR (length ps)) by (apply Rdiv_nonneg; lra).
  lra.
Qed.

Lemma avgSpeed_fin (ps : list particle) :
  Forall finite_vel ps -> ps <> [] ->
  avgSpeed ps = Fin (sumSpeed_R ps / INR (length ps)).
Proof.
  intros Hf Hne. unfold avgSpeed. rewrite sumSpeed_fin by done.
  rewrite js_div_fin; [done|]. pose proof (length_INR_pos ps Hne). lra.
Qed.

Lemma scale_fin (T : R) (ps : list particle) :
  0 <= T -> Forall finite_vel ps -> ps <> [] ->
  scale T ps = Fin (0.5 * sqrt T / divisor_R ps).
Proof.
  intros HT Hf Hne. unfold scale, desiredAvgSpeed, baseSpeedFactor.
  rewrite js_sqrt_fin by done. js_fin.
  rewrite avgSpeed_fin, js_or_fin by done. fold (divisor_R ps).
  rewrite js_div_fin; [done|]. pose proof (divisor_R_pos ps Hne). lra.
Qed.

Lemma thermostat_fin (T : R) (ps : list particle) :
  0 <= T -> Forall finite_vel ps ->
  thermostat T ps
  = map (fun p => set_vel p (vx p * Fin (0.5 * sqrt T / divisor_R ps))%J
                            (vy p * Fin (0.5 * sqrt T / divisor_R ps))%J) ps.
Proof.
  intros HT Hf. destruct ps as [|p ps]; [done|].
  unfold thermostat. now rewrite scale_fin.
Qed.

Lemma thermostat_finite_vel (T : R) (ps : list particle) :
  0 <= T -> Forall finite_vel ps -> Forall finite_vel (thermostat T ps).
Proof.
  intros HT Hf. rewrite thermostat_fin by done.
  apply Forall_fmap. eapply Forall_impl; [exact Hf|].
  intros p (u & v & Hu & Hv). cbn. rewrite Hu, Hv. js_fin. now eexists _, _.
Qed.

Lemma thermostat_finite (T : R) (ps : list particle) :
  0 <= T -> Forall finite ps -> Forall finite (thermostat T ps).
Proof.
  intros HT Hf. rewrite thermostat_fin by (done || now apply Forall_finite_vel).
  apply Forall_fmap. eapply Forall_impl; [exact Hf|].
  intros p (a & b & u & v & r & ->). cbn. js_fin. now eexists _, _, _, _, _.
Qed.

Lemma speed_R_scaled (c : R) (p : particle) :
  finite_vel p -> 0 <= c ->
  speed_R (set_vel p (vx p * Fin c)%J (vy p * Fin c)%J) = c * speed_R p.
Proof.
  intros (u & v & Hu & Hv) Hc. unfold speed_R. cbn. rewrite Hu, Hv.
  js_fin. cbn.
  replace (u * c * (u * c) + v * c * (v * c)) with (c * c * (u * u + v * v))
    by ring.
  rewrite sqrt_mult by (apply sumsq_nonneg || nra).
  now rewrite sqrt_square.
Qed.

Lemma sumSpeed_R_scaled (c : R) (ps : list particle) :
  Forall finite_vel ps -> 0 <= c ->
  sumSpeed_R (map (fun p => set_vel p (vx p * Fin c)%J (vy p * Fin c)%J) ps)
  = c * sumSpeed_R ps.
Proof.
  intros Hf Hc. induction Hf as [|p ps Hp _ IH]; cbn [map sumSpeed_R].
  - lra.
  - rewrite IH, speed_R_scaled by done. lra.
Qed.

Lemma sumSpeed_R_pos (ps : list particle) :
  Forall finite_vel ps -> Exists (fun p => speed p <> Fin 0) ps ->
  0 < sumSpeed_R ps.
Proof.
  intros Hf Hex. induction Hex as [p ps Hp|p ps _ IH];
    apply Forall_cons in Hf as [Hfp Hfps]; cbn [sumSpeed_R];
    pose proof (speed_R_nonneg p); pose proof (sumSpeed_R_nonneg ps).
  - rewrite speed_fin in Hp by done.
    assert (speed_R p <> 0) by (intros E; now rewrite E in Hp). lra.
  - specialize (IH Hfps). lra.
Qed.

Lemma speed_at_rest (p : particle) : at_rest p -> speed p = Fin 0.
Proof.
  intros [Hu Hv]. unfold speed. rewrite Hu, Hv. js_fin.
  f_equal. apply sqrt_of_square; lra.
Qed.

Lemma sumSpeed_at_rest (ps : list particle) :
  Forall at_rest ps -> sumSpeed ps = Fin 0.
Proof.
  unfold sumSpeed. induction 1 as [|p ps Hp _ IH]; [done|].
  cbn [foldl]. rewrite speed_at_rest by done. js_fin.
  now rewrite Rplus_0_r.
Qed.

(** ** Explicit ensembles after the position update and the wall pass *)

Lemma crossing_walled :
  wallCollisions (integrate crossing)
  = [Particle 5 100 (-5) 0 5; Particle 8 100 5 0 5].
Proof.
  unfold crossing, wallCollisions, integrate, wallX, wallY, width, height.
  js_compare. unfold set_pos. cbn [x y vx vy radius]. js_fin.
  repeat f_equal; lra.
Qed.

Lemma cornered_walled :
  wallCollisions (integrate cornered)
  = [Particle 5 5 1 1 5; Particle 5 5 1 1 5].
Proof.
  unfold cornered, wallCollisions, integrate, wallX, wallY, width, height.
  js_compare. unfold set_pos. cbn [x y vx vy radius]. js_fin.
  assert (Rabs (-1) = 1) by (rewrite Rabs_left; lra).
  repeat f_equal; lra.
Qed.

Lemma row_walled :
  wallCollisions (integrate row)
  = [Particle 100 100 (-1) 0 5; Particle 108 100 0 1 5;
     Particle 110 100 1 0 5].
Proof.
  unfold row, wallCollisions, integrate, wallX, wallY, width, height.
  js_compare. unfold set_pos. cbn [x y vx vy radius]. js_fin.
  repeat f_equal; lra.
Qed.

Lemma distant_walled :
  wallCollisions (integrate distant)
  = [Particle 5 204 3 4 5; Particle 305 204 3 (-4) 5].
Proof.
  unfold distant, wallCollisions, integrate, wallX, wallY, width, height.
  js_compare. unfold set_pos. cbn [x y vx vy radius]. js_fin.
  assert (Rabs (-3) = 3) by (rewrite Rabs_left; lra).
  repeat f_equal; lra.
Qed.

(** ** Wall containment *)

Lemma updateParticles_no_overlap (T : num) (ps : list particle) :
  no_overlap (wallCollisions (integrate ps)) ->
  updateParticles T ps = thermostat T (wallCollisions (integrate ps)).
Proof.
  intros H. unfold updateParticles. now rewrite particleCollisions_no_overlap.
Qed.

Lemma frames_invariant (T : R) (n : nat) (ps : list particle) :
  0 <= T -> Forall finite ps -> Forall radius5 ps ->
  (forall k, (k < n)%nat ->
             no_overlap (wallCollisions (integrate (frames T k ps)))) ->
  Forall finite (frames T n ps) /\ Forall radius5 (frames T n ps)
  /\ ((0 < n)%nat -> Forall in_box (frames T n ps)).
Proof.
  intros HT Hf Hr. induction n as [|n IH]; intros Hno.
  - repeat split; [done|done|lia].
  - destruct IH as (IHf & IHr & _); [intros k Hk; apply Hno; lia|].
    cbn [frames]. rewrite updateParticles_no_overlap by (apply Hno; lia).
    split; [|split].
    + now apply thermostat_finite, wallCollisions_finite, integrate_finite.
    + now apply thermostat_radius5, wallCollisions_radius5, integrate_radius5.
    + intros _. apply thermostat_in_box, wallCollisions_in_box.
      * now apply integrate_finite.
      * now apply integrate_radius5.
Qed.

(** C1, for frames without overlap.  For a temperature [T > 0] and an
    ensemble of finite particles of radius 5, run for any number [n] of
    frames in none of which two particles overlap after the wall pass:
    in the next frame every particle lies in the box right after the
    wall pass, and for [n > 0] every particle lies in the box at the end
    of frame [n]. *)
Theorem frames_wall_containment (T : R) (n : nat) (ps : list particle) :
  0 < T -> Forall finite ps -> Forall radius5 ps ->
  (forall k, (k < n)%nat ->
             no_overlap (wallCollisions (integrate (frames T k ps)))) ->
  Forall in_box (wallCollisions (integrate (frames T n ps)))
  /\ ((0 < n)%nat -> Forall in_box (frames T n ps)).
Proof.
  intros HT Hf Hr Hno.
  destruct (frames_invariant T n ps) as (Hfn & Hrn & Hbox); [lra|done..|].
  split; [|done]. apply wallCollisions_in_box.
  - now apply integrate_finite.
  - now apply integrate_radius5.
Qed.

Lemma frames_wall_containment_witness :
  Forall in_box (wallCollisions (integrate (frames 100 1 distant)))
  /\ Forall in_box (frames 100 1 distant).
Proof.
  destruct (frames_wall_containment 100 1 distant) as [Hwall Hend].
  - lra.
  - repeat constructor; now eexists _, _, _, _, _.
  - now repeat constructor.
  - intros k Hk. replace k with 0%nat by lia. cbn [frames].
    rewrite distant_walled. apply no_overlap_two.
    rewrite centreDist_fin.
    replace (dist_R 5 204 305 204) with 300
      by (symmetry; apply dist_R_at; lra).
    cbn [radius]. js_fin. apply js_lt_fin_false. lra.
  - split; [exact Hwall | apply Hend; lia].
Defined.

(** C1 (counterexample).  One frame at [T = 100] from two finite particles
    of radius 5: after the wall pass the two overlap next to the left
    wall, and the separation moves the first one to [x = 1.5 < 5]. *)
Lemma crossing_escapes :
  0 < 100 /\ Forall finite crossing /\ Forall radius5 crossing
  /\ map x (frames 100 1 crossing) = [Fin 1.5; Fin 11.5]
  /\ ~ Forall in_box (frames 100 1 crossing).
Proof.
  assert (Hx : map x (frames 100 1 crossing) = [Fin 1.5; Fin 11.5]).
  { cbn [frames]. unfold updateParticles.
    destruct (thermostat_positions 100
                (particleCollisions (wallCollisions (integrate crossing))))
      as (-> & _).
    rewrite crossing_walled, particleCollisions_two.
    rewrite (collidePair_separating_at _ _ _ _ _ _ _ _ _ _ 3) by lra.
    cbn. repeat f_equal; lra. }
  split; [lra|]. split; [|split; [|split; [done|]]].
  - repeat constructor; now eexists _, _, _, _, _.
  - now repeat constructor.
  - apply (escape_left _ 0 1.5); [now rewrite Hx | lra].
Qed.

(** ** Coincident centres *)

(** C4, evaluated on coincident centres.  One frame from two particles
    that the wall pass clamps into the same corner: the pair overlaps at
    distance 0, [handleCollision] returns without touching it, and the
    separation that follows divides [0] by that distance, so both
    positions are [NaN] at the end of the frame. *)
Theorem updateParticles_coincident_NaN :
  centreDist (Particle 5 5 1 1 5) (Particle 5 5 1 1 5) = Fin 0
  /\ handleCollision (Particle 5 5 1 1 5) (Particle 5 5 1 1 5)
     = (Particle 5 5 1 1 5, Particle 5 5 1 1 5)
  /\ ((Fin 5 - Fin 5) / Fin 0)%J = NaN
  /\ particleCollisions (wallCollisions (integrate cornered))
     = [Particle NaN NaN 1 1 5; Particle NaN NaN 1 1 5]
  /\ map x (updateParticles 100 cornered) = [NaN; NaN]
  /\ map y (updateParticles 100 cornered) = [NaN; NaN].
Proof.
  assert (HD : dist_R 5 5 5 5 = 0) by (apply dist_R_at; lra).
  assert (Hpc : particleCollisions (wallCollisions (integrate cornered))
                = [Particle NaN NaN 1 1 5; Particle NaN NaN 1 1 5]).
  { rewrite cornered_walled, particleCollisions_two.
    now rewrite (collidePair_coincident_at 5 5 1 1 5 5 5 1 1 5 0) by lra. }
  split; [|split; [|split; [|split; [done|]]]].
  - now rewrite centreDist_fin, HD.
  - now apply handleCollision_coincident.
  - js_fin. replace (5 - 5) with 0 by lra. apply js_div_zero_zero.
  - unfold updateParticles.
    destruct (thermostat_positions 100
                (particleCollisions (wallCollisions (integrate cornered))))
      as (-> & -> & _).
    now rewrite Hpc.
Qed.

(** ** Separation of overlapping pairs *)

(** C5, for the pair just resolved.  When the collision loop resolves
    the pair [(i, j)] of finite particles whose centres do not coincide,
    that pair is left at a centre distance of at least the sum of its
    radii minus the tolerance [tol > 0].  An overlapping pair ends at the
    sum of the radii up to that tolerance; a pair that fails the overlap
    test is not modified, nor is anything else in the array.  Nothing is
    said about the pair after later iterations of the loop. *)
Theorem pairStep_separates
    (ps : list particle) (i j : nat) (p q : particle) (tol : R) :
  (i < j)%nat -> ps !! i = Some p -> ps !! j = Some q ->
  finite p -> finite q -> centreDist p q <> Fin 0 -> 0 < tol ->
  exists (p' q' : particle) (r1 r2 d' : R),
    pairStep i j ps !! i = Some p' /\ pairStep i j ps !! j = Some q'
    /\ radius p = Fin r1 /\ radius q = Fin r2
    /\ radius p' = Fin r1 /\ radius q' = Fin r2
    /\ centreDist p' q' = Fin d' /\ r1 + r2 - tol <= d'
    /\ ((centreDist p q <? radius p + radius q)%J = true ->
        Rabs (d' - (r1 + r2)) <= tol)
    /\ ((centreDist p q <? radius p + radius q)%J = false ->
        pairStep i j ps = ps /\ p' = p /\ q' = q
        /\ centreDist p q = Fin d').
Proof.
  intros Hij Hi Hj (x1 & y1 & u1 & v1 & r1 & ->)
    (x2 & y2 & u2 & v2 & r2 & ->) Hd Htol.
  rewrite centreDist_fin in Hd.
  assert (Hd0 : dist_R x1 y1 x2 y2 <> 0) by (intros E; now rewrite E in Hd).
  pose proof (lookup_lt_Some _ _ _ Hi) as Hli.
  pose proof (lookup_lt_Some _ _ _ Hj) as Hlj.
  cbn [radius]. js_fin. rewrite centreDist_fin, js_lt_fin.
  destruct (decide (dist_R x1 y1 x2 y2 < r1 + r2)) as [Hov|Hov].
  - destruct (collidePair_separates x1 y1 u1 v1 r1 x2 y2 u2 v2 r2 Hd0)
      as (a1 & b1 & c1 & e1 & a2 & b2 & c2 & e2 & Hcp & Hge & Heq).
    exists (Particle a1 b1 c1 e1 r1), (Particle a2 b2 c2 e2 r2), r1, r2,
      (dist_R a1 b1 a2 b2).
    unfold pairStep. rewrite Hi, Hj, Hcp.
    rewrite list_lookup_insert_ne by lia.
    rewrite !list_lookup_insert_eq by (rewrite ?length_insert; lia).
    rewrite centreDist_fin. rewrite (Heq Hov).
    do 7 (split; [done|]). split; [lra|]. split.
    + intros _. replace (r1 + r2 - (r1 + r2)) with 0 by lra.
      rewrite Rabs_R0. lra.
    + intros Hf%bool_decide_eq_false. done.
  - assert (Hps : pairStep i j ps = ps).
    { unfold pairStep. rewrite Hi, Hj, collidePair_apart by lra.
      now rewrite (list_insert_id ps i), (list_insert_id ps j). }
    exists (Particle x1 y1 u1 v1 r1), (Particle x2 y2 u2 v2 r2), r1, r2,
      (dist_R x1 y1 x2 y2).
    rewrite Hps, centreDist_fin.
    do 7 (split; [done|]). split; [lra|]. split.
    + intros Ht%bool_decide_eq_true. done.
    + now intros _.
Qed.

Lemma pairStep_separates_witness :
  exists (p' q' : particle) (d' : R),
    pairStep 0 1 headOn !! 0%nat = Some p'
    /\ pairStep 0 1 headOn !! 1%nat = Some q'
    /\ centreDist p' q' = Fin d' /\ 5 + 5 - 0.001 <= d'.
Proof.
  destruct (pairStep_separates headOn 0 1
              (Particle 0 0 1 0 5) (Particle 8 0 (-1) 0 5) 0.001)
    as (p' & q' & r1 & r2 & d' & Hp & Hq & Hr1 & Hr2 & _ & _ & Hd & Hge & _).
  - lia.
  - reflexivity.
  - reflexivity.
  - now eexists _, _, _, _, _.
  - now eexists _, _, _, _, _.
  - rewrite centreDist_fin.
    replace (dist_R 0 0 8 0) with 8 by (symmetry; apply dist_R_at; lra).
    intros E. apply Fin_inj in E. lra.
  - lra.
  - cbn in Hr1, Hr2. apply Fin_inj in Hr1, Hr2. subst r1 r2.
    now exists p', q', d'.
Defined.

(** C5 (counterexample).  After the position update and the wall pass
    the three particles of [row] sit at [x = 100, 108, 110].  The pairs
    are resolved one after the other: the first two particles are
    separated to distance 10, and resolving the last pair then pushes
    the second particle back to 5.5 from the first, where the collision
    pass leaves them. *)
Lemma row_still_overlapping :
  exists p q : particle,
    particleCollisions (wallCollisions (integrate row)) !! 0%nat = Some p
    /\ particleCollisions (wallCollisions (integrate row)) !! 1%nat = Some q
    /\ radius p = Fin 5 /\ radius q = Fin 5
    /\ centreDist p q = Fin 5.5
    /\ 5.5 < 5 + 5 - 4.
Proof.
  rewrite row_walled, particleCollisions_three. cbn zeta.
  rewrite (collidePair_separating_at _ _ _ _ _ _ _ _ _ _ 8) by lra.
  cbn [fst snd].
  rewrite (collidePair_apart_at _ _ _ _ _ _ _ _ _ _ 11) by lra.
  cbn [fst snd].
  rewrite (collidePair_separating_at _ _ _ _ _ _ _ _ _ _ 1) by lra.
  cbn [fst snd]. eexists _, _. repeat split; [|lra].
  rewrite centreDist_fin. f_equal. apply dist_R_at; lra.
Qed.

(** ** The thermostat *)

Lemma speed_R_moving (p : particle) :
  finite_vel p -> ~ at_rest p -> 0 < speed_R p.
Proof.
  intros (u & v & Hu & Hv) Hmove. unfold speed_R. rewrite Hu, Hv.
  apply sqrt_lt_R0.
  destruct (decide (u = 0)) as [->|Hu0]; [|nra].
  destruct (decide (v = 0)) as [->|Hv0]; [|nra].
  exfalso. apply Hmove. now split.
Qed.

Lemma sumSpeed_R_moving (ps : list particle) :
  Forall finite_vel ps -> Exists (fun p => ~ at_rest p) ps ->
  0 < sumSpeed_R ps.
Proof.
  intros Hf Hex. induction Hex as [p ps Hp|p ps _ IH];
    apply Forall_cons in Hf as [Hfp Hfps]; cbn [sumSpeed_R];
    pose proof (speed_R_nonneg p); pose proof (sumSpeed_R_nonneg ps).
  - pose proof (speed_R_moving p Hfp Hp). lra.
  - specialize (IH Hfps). lra.
Qed.

(** C2.  For a valid temperature [T >= 0] and an ensemble of particles
    with finite velocities of which at least one is moving, the
    thermostat leaves finite velocities whose speeds
    [sqrt (vx^2 + vy^2)] have the arithmetic mean [0.5 * sqrt T]; the
    mean the code itself would compute on the result ([avgSpeed]) is
    that same number, the target [desiredAvgSpeed]. *)
Theorem thermostat_mean_speed (T : R) (ps : list particle) :
  0 <= T -> Forall finite_vel ps ->
  Exists (fun p => ~ at_rest p) ps ->
  Forall finite_vel (thermostat T ps)
  /\ meanSpeed_R (thermostat T ps) = 0.5 * sqrt T
  /\ avgSpeed (thermostat T ps) = Fin (0.5 * sqrt T)
  /\ avgSpeed (thermostat T ps) = desiredAvgSpeed T.
Proof.
  intros HT Hf Hex.
  assert (Hne : ps <> []) by (intros ->; inversion Hex).
  assert (HS : 0 < sumSpeed_R ps) by now apply sumSpeed_R_moving.
  assert (Hn : 0 < INR (length ps)) by now apply length_INR_pos.
  assert (Havg : 0 < sumSpeed_R ps / INR (length ps))
    by now apply Rdiv_lt_0_compat.
  assert (Hdiv : divisor_R ps = sumSpeed_R ps / INR (length ps))
    by (unfold divisor_R; rewrite decide_False; [done|lra]).
  assert (Hc : 0 <= 0.5 * sqrt T / divisor_R ps).
  { apply Rdiv_nonneg; [|rewrite Hdiv; lra].
    pose proof (sqrt_pos T). lra. }
  assert (Hfin : Forall finite_vel (thermostat T ps))
    by now apply thermostat_finite_vel.
  assert (Hreal : meanSpeed_R (thermostat T ps) = 0.5 * sqrt T).
  { unfold meanSpeed_R. rewrite thermostat_fin by done.
    rewrite sumSpeed_R_scaled, length_map by done.
    rewrite Hdiv. field. split; lra. }
  assert (Hmean : avgSpeed (thermostat T ps) = Fin (0.5 * sqrt T)).
  { rewrite avgSpeed_fin; [|done|unfold thermostat; now destruct ps].
    f_equal. exact Hreal. }
  split; [done|]. split; [done|]. split; [done|].
  rewrite Hmean. unfold desiredAvgSpeed, baseSpeedFactor.
  rewrite js_sqrt_fin by done. now js_fin.
Qed.

Lemma thermostat_mean_speed_witness :
  Forall finite_vel
    (thermostat 100 [Particle 10 20 3 4 5; Particle 30 40 0 0 5])
  /\ meanSpeed_R (thermostat 100 [Particle 10 20 3 4 5; Particle 30 40 0 0 5])
     = 0.5 * sqrt 100.
Proof.
  destruct (thermostat_mean_speed 100
              [Particle 10 20 3 4 5; Particle 30 40 0 0 5])
    as (Hfin & Hmean & _).
  - lra.
  - repeat constructor; now eexists _, _.
  - apply Exists_cons_hd. intros [Hu _]. cbn in Hu.
    apply Fin_inj in Hu. lra.
  - now split.
Defined.

(** C9.  With every velocity exactly zero (and a valid temperature
    [T >= 0]) the mean speed is [0 / length = 0], the divisor
    [avgSpeed || 1] of the rescaling is [1], so the scale factor is the
    finite number [0.5 * sqrt T / 1], and every particle is still at rest
    after the pass. *)
Theorem thermostat_at_rest (T : R) (ps : list particle) :
  0 <= T -> ps <> [] -> Forall at_rest ps ->
  avgSpeed ps = Fin 0
  /\ (avgSpeed ps || Fin 1)%J = Fin 1
  /\ scale T ps = Fin (0.5 * sqrt T / 1)
  /\ Forall at_rest (thermostat T ps).
Proof.
  intros HT Hne Hrest.
  assert (Hn : INR (length ps) <> 0)
    by (pose proof (length_INR_pos ps Hne); lra).
  assert (Havg : avgSpeed ps = Fin 0).
  { unfold avgSpeed. rewrite sumSpeed_at_rest, js_div_fin by done.
    f_equal. now field. }
  assert (Hor : (avgSpeed ps || Fin 1)%J = Fin 1).
  { rewrite Havg, js_or_fin. now rewrite decide_True. }
  assert (Hsc : scale T ps = Fin (0.5 * sqrt T / 1)).
  { unfold scale. rewrite Hor. unfold desiredAvgSpeed, baseSpeedFactor.
    rewrite js_sqrt_fin by done. js_fin. now rewrite js_div_fin by lra. }
  repeat split; try done.
  unfold thermostat. rewrite Hsc. apply Forall_fmap.
  eapply Forall_impl; [exact Hrest|]. intros p [Hu Hv].
  split; cbn; rewrite ?Hu, ?Hv; js_fin; f_equal; lra.
Qed.

Lemma thermostat_at_rest_witness :
  avgSpeed [Particle 10 20 0 0 5; Particle 30 40 0 0 5] = Fin 0
  /\ Forall at_rest
       (thermostat 100 [Particle 10 20 0 0 5; Particle 30 40 0 0 5]).
Proof.
  destruct (thermostat_at_rest 100
              [Particle 10 20 0 0 5; Particle 30 40 0 0 5])
    as (Havg & _ & _ & Hrest).
  - lra.
  - discriminate.
  - repeat constructor.
  - now split.
Defined.

(** ** The distribution model *)

Lemma mbDistribution_fin (E T : R) :
  0 <= E -> Chart.mbDistribution E T = Fin (density_spec E T).
Proof.
  intros HE. unfold Chart.mbDistribution, Chart.effectiveTemperature,
    Chart.sharpness, Chart.totalParticles, density_spec.
  cbn zeta. js_fin. fold (T_eff_R T). rewrite js_le_fin.
  case_bool_decide as Ht; case_decide; try done.
  pose proof sqrt_PI_pos. pose proof PI_RGT_0.
  rewrite (js_sqrt_fin E), (js_sqrt_fin PI) by lra. js_fin.
  rewrite !js_div_fin by lra.
  rewrite js_pow_1_5_fin by (apply Rdiv_lt_0_compat; lra).
  rewrite js_exp_fin. js_fin. f_equal. ring.
Qed.

(** *** Sums over the sampled curve *)

Lemma Rsum_app (l k : list R) : Rsum (l ++ k) = Rsum l + Rsum k.
Proof.
  induction l as [|a l IH]; cbn [app Rsum]; [lra|]. rewrite IH. lra.
Qed.

Lemma sum_f_R0_seq (f : nat -> R) (n : nat) :
  sum_f_R0 f n = Rsum (map f (seq 0 (S n))).
Proof.
  induction n as [|n IH].
  - cbn. lra.
  - rewrite seq_S, map_app, Rsum_app, <- IH. cbn. lra.
Qed.

Section Curve.

Variable T : R.

(** The dataset the chart builds is [sampled] at the energies
    [0 .. 600]. *)
Lemma dynamicData_sampled :
  Chart.dynamicData T = sampled T (seq 0 (600 + 1)).
Proof.
  unfold Chart.dynamicData, Chart.energies, sampled.
  generalize (seq 0 (600 + 1)). intros l.
  induction l as [|i l IH]; [done|].
  cbn [map]. now rewrite IH, mbDistribution_fin by apply pos_INR.
Qed.

Lemma sums_from (l : list nat) (a b : R) :
  foldl (fun '(sumE, sumF) pt =>
           (sumE + Chart.x pt * Chart.y pt, sumF + Chart.y pt)%J)
        (Fin a, Fin b) (sampled T l)
  = (Fin (a + Rsum (map (fun i => INR i * density_spec (INR i) T) l)),
     Fin (b + Rsum (map (fun i => density_spec (INR i) T) l))).
Proof.
  revert a b. induction l as [|i l IH]; intros a b.
  - cbn. now rewrite !Rplus_0_r.
  - cbn [sampled map foldl Chart.x Chart.y]. fold (sampled T l).
    js_fin. rewrite IH. cbn [map Rsum]. f_equal; f_equal; lra.
Qed.

Lemma area_from (l : list nat) (a : R) :
  foldl (fun sum pt => (sum + Chart.y pt)%J) (Fin a) (sampled T l)
  = Fin (a + Rsum (map (fun i => density_spec (INR i) T) l)).
Proof.
  revert a. induction l as [|i l IH]; intros a.
  - cbn. now rewrite Rplus_0_r.
  - cbn [sampled map foldl Chart.y]. fold (sampled T l).
    js_fin. rewrite IH. cbn [map Rsum]. f_equal; lra.
Qed.

Lemma filter_sampled (thr : R) (l : list nat) :
  List.filter (fun pt => (Chart.x pt >=? Fin thr)%J) (sampled T l)
  = sampled T (List.filter (fun i => bool_decide (thr <= INR i)) l).
Proof.
  induction l as [|i l IH]; [done|].
  cbn [sampled map List.filter Chart.x]. fold (sampled T l).
  rewrite js_ge_fin, IH. now case_bool_decide.
Qed.

Lemma Rsum_filter (thr : R) (l : list nat) :
  Rsum (map (fun i => density_spec (INR i) T)
            (List.filter (fun i => bool_decide (thr <= INR i)) l))
  = Rsum (map (fun i => if decide (thr <= INR i)
                        then density_spec (INR i) T else 0) l).
Proof.
  induction l as [|i l IH]; [done|].
  cbn [List.filter map]. case_bool_decide; case_decide; try done;
    cbn [map Rsum]; rewrite <- IH; lra.
Qed.

Lemma sums_dynamicData :
  Chart.sums (Chart.dynamicData T)
  = (Fin (weighted_density T), Fin (total_density T)).
Proof.
  unfold Chart.sums. rewrite dynamicData_sampled, sums_from.
  unfold weighted_density, total_density. rewrite !sum_f_R0_seq.
  replace (600 + 1)%nat with 601%nat by lia.
  now rewrite !Rplus_0_l.
Qed.

Lemma area_dynamicData :
  Chart.area (Chart.dynamicData T) = Fin (total_density T).
Proof.
  unfold Chart.area. rewrite dynamicData_sampled, area_from.
  unfold total_density. rewrite sum_f_R0_seq.
  replace (600 + 1)%nat with 601%nat by lia. now rewrite Rplus_0_l.
Qed.

Lemma area_above (thr : R) :
  Chart.area (List.filter (fun pt => (Chart.x pt >=? Fin thr)%J)
                          (Chart.dynamicData T))
  = Fin (density_above thr T).
Proof.
  unfold Chart.area. rewrite dynamicData_sampled, filter_sampled, area_from.
  rewrite Rsum_filter. unfold density_above. rewrite sum_f_R0_seq.
  replace (600 + 1)%nat with 601%nat by lia. now rewrite Rplus_0_l.
Qed.

End Curve.

(** C6.  For [E >= 0] and any temperature [T], the effective temperature
    is [0.5 * T + 50], and [mbDistribution(E, T)] is [0] when that is not
    positive and the stated product otherwise. *)
Theorem mbDistribution_density (E T : R) :
  0 <= E ->
  Chart.effectiveTemperature T = Fin (0.5 * T + 50)
  /\ Chart.mbDistribution E T
     = Fin (if decide (0.5 * T + 50 <= 0) then 0
            else 0.72 * (2 / sqrt PI) * Rpower (2 / (0.5 * T + 50)) 1.5
                 * sqrt E * exp (- E / (0.5 * T + 50)) * 50).
Proof.
  intros HE. split; [done|]. now rewrite mbDistribution_fin.
Qed.

Lemma mbDistribution_density_witness :
  Chart.mbDistribution 100 300
  = Fin (if decide (0.5 * 300 + 50 <= 0) then 0
         else 0.72 * (2 / sqrt PI) * Rpower (2 / (0.5 * 300 + 50)) 1.5
              * sqrt 100 * exp (- 100 / (0.5 * 300 + 50)) * 50).
Proof. apply (mbDistribution_density 100 300). lra. Defined.

(** C7.  The mean energy computed over the generated curve is the
    density-weighted average [sum (E * f E) / sum (f E)] over the sampled
    energies [0 .. 600], and [0] when the total density is [0]. *)
Theorem E_mean_weighted_average (T : R) :
  Chart.E_mean T
  = Fin (if decide (total_density T = 0) then 0
         else weighted_density T / total_density T).
Proof.
  unfold Chart.E_mean. rewrite sums_dynamicData, js_truthy_fin.
  case_bool_decide; case_decide; try done. now rewrite js_div_fin.
Qed.

(** C8.  The percentage above the activation threshold (400, or 300 with
    the catalyst on) is 100 times the density summed over the sampled
    energies [E >= threshold] divided by the total density, and [0] when
    the total density is [0]. *)
Theorem percentageAbove_fraction (showCatalyst : bool) (T : R) :
  Chart.percentageAbove showCatalyst T
  = Fin (let threshold := if showCatalyst then 300 else 400 in
         if decide (total_density T = 0) then 0
         else 100 * (density_above threshold T / total_density T)).
Proof.
  unfold Chart.percentageAbove. cbn zeta. rewrite area_dynamicData.
  replace (if showCatalyst then Fin 300 else Fin 400)
    with (Fin (if showCatalyst then 300 else 400)) by now destruct showCatalyst.
  rewrite area_above, js_truthy_fin.
  case_bool_decide; case_decide; try done.
  rewrite js_div_fin by done. js_fin. f_equal. lra.
Qed.

(** * Further properties of the code *)

(** ** Further properties of [handleCollision] and of the loop body *)

(** The velocity changes of the two particles are opposite. *)
Lemma handleCollision_opposite (x1 y1 u1 v1 r1 x2 y2 u2 v2 r2 : R) :
  exists jx jy : R,
    handleCollision (Particle x1 y1 u1 v1 r1) (Particle x2 y2 u2 v2 r2)
    = (Particle x1 y1 (u1 - jx) (v1 - jy) r1,
       Particle x2 y2 (u2 + jx) (v2 + jy) r2).
Proof.
  destruct (decide (dist_R x1 y1 x2 y2 = 0)) as [Hd|Hd].
  - exists 0, 0. rewrite handleCollision_coincident by done.
    now rewrite !Rminus_0_r, !Rplus_0_r.
  - destruct (decide (0 < relVel_R x1 y1 u1 v1 x2 y2 u2 v2)) as [Hr|Hr].
    + exists 0, 0. rewrite handleCollision_separating by done.
      now rewrite !Rminus_0_r, !Rplus_0_r.
    + eexists _, _. apply handleCollision_impulse; [done|lra].
Qed.

(** [handleCollision] never adds kinetic energy: the sum of the squared
    speeds of the two particles does not grow, and when an impulse is
    applied it drops by [(1 - 0.9 * 0.9) / 2] times the squared relative
    normal velocity. *)
Theorem handleCollision_energy (x1 y1 u1 v1 r1 x2 y2 u2 v2 r2 : R) :
  exists a b c e : R,
    handleCollision (Particle x1 y1 u1 v1 r1) (Particle x2 y2 u2 v2 r2)
    = (Particle x1 y1 a b r1, Particle x2 y2 c e r2)
    /\ a * a + b * b + c * c + e * e <= u1 * u1 + v1 * v1 + u2 * u2 + v2 * v2
    /\ (dist_R x1 y1 x2 y2 <> 0 ->
        relVel_R x1 y1 u1 v1 x2 y2 u2 v2 <= 0 ->
        a * a + b * b + c * c + e * e
        = u1 * u1 + v1 * v1 + u2 * u2 + v2 * v2
          - (1 - 0.9 * 0.9) / 2
            * (relVel_R x1 y1 u1 v1 x2 y2 u2 v2
               * relVel_R x1 y1 u1 v1 x2 y2 u2 v2)).
Proof.
  destruct (decide (dist_R x1 y1 x2 y2 = 0)) as [Hd|Hd].
  { exists u1, v1, u2, v2. rewrite handleCollision_coincident by done.
    split; [done|]. split; [lra|done]. }
  destruct (decide (0 < relVel_R x1 y1 u1 v1 x2 y2 u2 v2)) as [Hr|Hr].
  { exists u1, v1, u2, v2. rewrite handleCollision_separating by done.
    split; [done|]. split; [lra|]. intros _ Hle. lra. }
  eexists _, _, _, _. rewrite handleCollision_impulse by (done || lra).
  split; [reflexivity|].
  pose proof (normal_unit x1 y1 x2 y2 Hd) as Hn.
  set (nx := nx_R x1 y1 x2 y2) in *. set (ny := ny_R x1 y1 x2 y2) in *.
  assert (Hrel : relVel_R x1 y1 u1 v1 x2 y2 u2 v2
                 = (u2 - u1) * nx + (v2 - v1) * ny) by reflexivity.
  unfold impulse_R.
  set (rel := relVel_R x1 y1 u1 v1 x2 y2 u2 v2) in *.
  set (J := - (1 + 0.9) * rel / 2).
  assert (Heq : (u1 - J * nx) * (u1 - J * nx) + (v1 - J * ny) * (v1 - J * ny)
                + (u2 + J * nx) * (u2 + J * nx) + (v2 + J * ny) * (v2 + J * ny)
                = u1 * u1 + v1 * v1 + u2 * u2 + v2 * v2
                  - (1 - 0.9 * 0.9) / 2 * (rel * rel)).
  { transitivity (u1 * u1 + v1 * v1 + u2 * u2 + v2 * v2
                  + 2 * J * ((u2 - u1) * nx + (v2 - v1) * ny)
                  + 2 * J * J * (nx * nx + ny * ny)); [ring|].
    rewrite Hn, <- Hrel. unfold J. field. }
  split; [|intros _ _; exact Heq].
  rewrite Heq. assert (0 <= rel * rel) by nra. lra.
Qed.

(** After [handleCollision] two particles at positive centre distance
    are not approaching each other along the centre line. *)
Theorem handleCollision_not_approaching
    (x1 y1 u1 v1 r1 x2 y2 u2 v2 r2 : R) :
  let p1 := Particle x1 y1 u1 v1 r1 in
  let p2 := Particle x2 y2 u2 v2 r2 in
  centreDist p1 p2 <> Fin 0 ->
  exists rel' : R,
    relNormalVel (handleCollision p1 p2).1 (handleCollision p1 p2).2
    = Fin rel'
    /\ 0 <= rel'.
Proof.
  intros p1 p2 Hd. unfold p1, p2 in *. rewrite centreDist_fin in Hd.
  assert (Hd0 : dist_R x1 y1 x2 y2 <> 0) by (intros E; now rewrite E in Hd).
  destruct (decide (0 < relVel_R x1 y1 u1 v1 x2 y2 u2 v2)) as [Hr|Hr].
  - rewrite handleCollision_separating by done. cbn [fst snd].
    rewrite relNormalVel_fin by done. eexists. split; [reflexivity|lra].
  - rewrite handleCollision_impulse by (done || lra). cbn [fst snd].
    rewrite relNormalVel_fin by done. eexists. split; [reflexivity|].
    pose proof (normal_unit x1 y1 x2 y2 Hd0) as Hn.
    unfold relVel_R at 1. unfold impulse_R.
    set (nx := nx_R x1 y1 x2 y2) in *. set (ny := ny_R x1 y1 x2 y2) in *.
    assert (Hrel : relVel_R x1 y1 u1 v1 x2 y2 u2 v2
                   = (u2 - u1) * nx + (v2 - v1) * ny) by reflexivity.
    set (rel := relVel_R x1 y1 u1 v1 x2 y2 u2 v2) in *.
    set (J := - (1 + 0.9) * rel / 2).
    replace ((u2 + J * nx - (u1 - J * nx)) * nx
             + (v2 + J * ny - (v1 - J * ny)) * ny)
      with (rel + 2 * J * (nx * nx + ny * ny)) by (rewrite Hrel; ring).
    rewrite Hn. unfold J. lra.
Qed.

Lemma handleCollision_not_approaching_witness :
  exists rel' : R,
    relNormalVel
      (handleCollision (Particle 0 0 1 0 5) (Particle 8 0 (-1) 0 5)).1
      (handleCollision (Particle 0 0 1 0 5) (Particle 8 0 (-1) 0 5)).2
    = Fin rel'
    /\ 0 <= rel'.
Proof.
  apply (handleCollision_not_approaching 0 0 1 0 5 8 0 (-1) 0 5).
  rewrite centreDist_fin.
  replace (dist_R 0 0 8 0) with 8 by (symmetry; apply dist_R_at; lra).
  intros E. apply Fin_inj in E. lra.
Defined.

(** Resolving a pair at positive centre distance moves the two centres
    by opposite amounts (their midpoint stays where it was), keeps the
    radii, and leaves the velocities as [handleCollision] set them when
    the pair overlapped. *)
Theorem collidePair_midpoint (x1 y1 u1 v1 r1 x2 y2 u2 v2 r2 : R) :
  let p1 := Particle x1 y1 u1 v1 r1 in
  let p2 := Particle x2 y2 u2 v2 r2 in
  centreDist p1 p2 <> Fin 0 ->
  exists a1 b1 c1 e1 a2 b2 c2 e2 : R,
    collidePair p1 p2 = (Particle a1 b1 c1 e1 r1, Particle a2 b2 c2 e2 r2)
    /\ a1 + a2 = x1 + x2 /\ b1 + b2 = y1 + y2
    /\ ((centreDist p1 p2 <? Fin (r1 + r2)%R)%J = true ->
        handleCollision p1 p2
        = (Particle x1 y1 c1 e1 r1, Particle x2 y2 c2 e2 r2))
    /\ ((centreDist p1 p2 <? Fin (r1 + r2)%R)%J = false ->
        collidePair p1 p2 = (p1, p2)).
Proof.
  intros p1 p2 Hd. unfold p1, p2 in *. rewrite centreDist_fin in *.
  assert (Hd0 : dist_R x1 y1 x2 y2 <> 0) by (intros E; now rewrite E in Hd).
  rewrite js_lt_fin.
  destruct (decide (dist_R x1 y1 x2 y2 < r1 + r2)) as [Hov|Hov].
  - destruct (handleCollision_shape x1 y1 u1 v1 r1 x2 y2 u2 v2 r2)
      as (a & b & c & e & Hhc).
    rewrite (collidePair_overlap _ _ _ _ _ _ _ _ _ _ a b c e) by done.
    eexists _, _, _, _, _, _, _, _. split; [reflexivity|].
    split; [lra|]. split; [lra|]. split; [done|].
    intros Hf%bool_decide_eq_false. done.
  - rewrite collidePair_apart by lra.
    eexists _, _, _, _, _, _, _, _. split; [reflexivity|].
    split; [lra|]. split; [lra|]. split; [|done].
    intros Ht%bool_decide_eq_true. done.
Qed.

Lemma collidePair_midpoint_witness :
  exists a1 b1 c1 e1 a2 b2 c2 e2 : R,
    collidePair (Particle 0 0 1 0 5) (Particle 8 0 (-1) 0 5)
    = (Particle a1 b1 c1 e1 5, Particle a2 b2 c2 e2 5)
    /\ a1 + a2 = 0 + 8 /\ b1 + b2 = 0 + 0
    /\ ((centreDist (Particle 0 0 1 0 5) (Particle 8 0 (-1) 0 5)
           <? Fin (5 + 5)%R)%J = true ->
        handleCollision (Particle 0 0 1 0 5) (Particle 8 0 (-1) 0 5)
        = (Particle 0 0 c1 e1 5, Particle 8 0 c2 e2 5))
    /\ ((centreDist (Particle 0 0 1 0 5) (Particle 8 0 (-1) 0 5)
           <? Fin (5 + 5)%R)%J = false ->
        collidePair (Particle 0 0 1 0 5) (Particle 8 0 (-1) 0 5)
        = (Particle 0 0 1 0 5, Particle 8 0 (-1) 0 5)).
Proof.
  apply (collidePair_midpoint 0 0 1 0 5 8 0 (-1) 0 5).
  rewrite centreDist_fin.
  replace (dist_R 0 0 8 0) with 8 by (symmetry; apply dist_R_at; lra).
  intros E. apply Fin_inj in E. lra.
Defined.

Lemma dist_R_sym (x1 y1 x2 y2 : R) : dist_R x2 y2 x1 y1 = dist_R x1 y1 x2 y2.
Proof. unfold dist_R. f_equal. ring. Qed.

Lemma nx_R_sym (x1 y1 x2 y2 : R) : nx_R x2 y2 x1 y1 = - nx_R x1 y1 x2 y2.
Proof. unfold nx_R. rewrite dist_R_sym. unfold Rdiv. ring. Qed.

Lemma ny_R_sym (x1 y1 x2 y2 : R) : ny_R x2 y2 x1 y1 = - ny_R x1 y1 x2 y2.
Proof. unfold ny_R. rewrite dist_R_sym. unfold Rdiv. ring. Qed.

Lemma relVel_R_sym (x1 y1 u1 v1 x2 y2 u2 v2 : R) :
  relVel_R x2 y2 u2 v2 x1 y1 u1 v1 = relVel_R x1 y1 u1 v1 x2 y2 u2 v2.
Proof. unfold relVel_R. rewrite nx_R_sym, ny_R_sym. ring. Qed.

(** The outcome of a collision does not depend on which of the two
    particles is passed first. *)
Theorem handleCollision_symmetric (x1 y1 u1 v1 r1 x2 y2 u2 v2 r2 : R) :
  let p1 := Particle x1 y1 u1 v1 r1 in
  let p2 := Particle x2 y2 u2 v2 r2 in
  handleCollision p2 p1
  = ((handleCollision p1 p2).2, (handleCollision p1 p2).1).
Proof.
  intros p1 p2. unfold p1, p2.
  pose proof (dist_R_sym x1 y1 x2 y2) as HD.
  pose proof (relVel_R_sym x1 y1 u1 v1 x2 y2 u2 v2) as HR.
  destruct (decide (dist_R x1 y1 x2 y2 = 0)) as [Hd|Hd].
  { rewrite (handleCollision_coincident x1 y1 u1 v1 r1 x2 y2 u2 v2 r2) by done.
    now rewrite handleCollision_coincident by now rewrite HD. }
  destruct (decide (0 < relVel_R x1 y1 u1 v1 x2 y2 u2 v2)) as [Hr|Hr].
  { rewrite (handleCollision_separating x1 y1 u1 v1 r1 x2 y2 u2 v2 r2) by done.
    now rewrite handleCollision_separating by now rewrite ?HD, ?HR. }
  rewrite (handleCollision_impulse x1 y1 u1 v1 r1 x2 y2 u2 v2 r2)
    by (done || lra).
  rewrite (handleCollision_impulse x2 y2 u2 v2 r2 x1 y1 u1 v1 r1)
    by (rewrite ?HD, ?HR; done || lra).
  cbn [fst snd]. unfold impulse_R.
  rewrite HR, (nx_R_sym x1 y1 x2 y2), (ny_R_sym x1 y1 x2 y2).
  f_equal; f_equal; f_equal; ring.
Qed.

(** A frame in which no two particles overlap after the wall pass: the
    collision pass changes nothing, every particle ends where the wall
    pass put it, and only the thermostat touches the velocities. *)
Theorem frame_without_overlap (T : num) (ps : list particle) :
  no_overlap (wallCollisions (integrate ps)) ->
  particleCollisions (wallCollisions (integrate ps))
  = wallCollisions (integrate ps)
  /\ updateParticles T ps = thermostat T (wallCollisions (integrate ps))
  /\ map x (updateParticles T ps) = map x (wallCollisions (integrate ps))
  /\ map y (updateParticles T ps) = map y (wallCollisions (integrate ps)).
Proof.
  intros Hno. pose proof (particleCollisions_no_overlap _ Hno) as Hpc.
  split; [done|]. unfold updateParticles. rewrite Hpc.
  split; [done|].
  now destruct (thermostat_positions T (wallCollisions (integrate ps)))
    as (-> & -> & _).
Qed.

Lemma frame_without_overlap_witness :
  updateParticles 100 distant
  = thermostat 100 (wallCollisions (integrate distant)).
Proof.
  apply (frame_without_overlap 100 distant).
  rewrite distant_walled. apply no_overlap_two.
  rewrite centreDist_fin.
  replace (dist_R 5 204 305 204) with 300
    by (symmetry; apply dist_R_at; lra).
  cbn [radius]. js_fin. apply js_lt_fin_false. lra.
Defined.

(** ** Further properties of the wall pass *)


Lemma wallX_finite_vel (p : particle) : finite_vel p -> finite_vel (wallX p).
Proof.
  intros (u & v & Hu & Hv). unfold wallX.
  repeat case_match; unfold finite_vel; cbn; rewrite ?Hu, ?Hv; js_fin; eauto.
Qed.

Lemma wallY_finite_vel (p : particle) : finite_vel p -> finite_vel (wallY p).
Proof.
  intros (u & v & Hu & Hv). unfold wallY.
  repeat case_match; unfold finite_vel; cbn; rewrite ?Hu, ?Hv; js_fin; eauto.
Qed.





(** A particle of radius 5 that lies in the box is not touched by the
    wall pass, whatever its velocity. *)
Theorem wall_pass_fixes_in_box (p : particle) :
  in_box p -> radius5 p -> wallY (wallX p) = p.
Proof.
  intros (a & b & Ha & Hb & Hxa & Hyb) Hr. unfold radius5 in Hr.
  destruct p as [px py pu pv pr]. cbn in *. subst.
  unfold wallX, wallY, width, height. cbn. js_fin.
  rewrite !js_lt_fin, !js_gt_fin.
  rewrite !bool_decide_eq_false_2 by lra. cbn. js_fin.
  rewrite !js_lt_fin, !js_gt_fin.
  now rewrite !bool_decide_eq_false_2 by lra.
Qed.

Lemma wall_pass_fixes_in_box_witness :
  wallY (wallX (Particle 5 395 (-3) 4 5)) = Particle 5 395 (-3) 4 5.
Proof.
  apply (wall_pass_fixes_in_box (Particle 5 395 (-3) 4 5)).
  - exists 5, 395. repeat split; lra.
  - reflexivity.
Defined.

(** The wall pass is idempotent on ensembles of finite particles of
    radius 5. *)
Theorem wallCollisions_idempotent (ps : list particle) :
  Forall finite ps -> Forall radius5 ps ->
  wallCollisions (wallCollisions ps) = wallCollisions ps.
Proof.
  intros Hf Hr. unfold wallCollisions. rewrite <- list_fmap_compose.
  apply list_eq_Forall2, Forall2_fmap, Forall_Forall2_diag.
  apply Forall_lookup. intros i p Hi. cbn.
  eapply Forall_lookup in Hf; [|exact Hi].
  eapply Forall_lookup in Hr; [|exact Hi].
  pose proof (wall_in_box p Hf Hr) as Hbox.
  destruct Hbox as (a & b & Ha & Hb & Hxa & Hyb).
  assert (Hrad : radius (wallY (wallX p)) = Fin 5)
    by now rewrite wallY_radius, wallX_radius.
  destruct (wallY (wallX p)) as [px py pu pv pr]. cbn in *. subst.
  unfold wallX, wallY, width, height. cbn. js_fin.
  rewrite !js_lt_fin, !js_gt_fin.
  rewrite !bool_decide_eq_false_2 by lra. cbn. js_fin.
  rewrite !js_lt_fin, !js_gt_fin.
  now rewrite !bool_decide_eq_false_2 by lra.
Qed.

Lemma wallCollisions_idempotent_witness :
  wallCollisions (wallCollisions cornered) = wallCollisions cornered.
Proof.
  apply (wallCollisions_idempotent cornered).
  - repeat constructor; now eexists _, _, _, _, _.
  - now repeat constructor.
Defined.

(** ** Velocities and momentum through the collision pass *)

Lemma js_sub_fin_inv (a b : num) (s : R) :
  (a - b)%J = Fin s -> exists r t : R, a = Fin r /\ b = Fin t.
Proof. unfold JS.sub, JS.add, JS.neg. destruct a, b; try done. eauto. Qed.

Lemma js_add_fin_inv (a b : num) (s : R) :
  (a + b)%J = Fin s -> exists r t : R, a = Fin r /\ b = Fin t.
Proof. unfold JS.add. destruct a, b; try done. eauto. Qed.

Lemma js_mul_self_fin_inv (a : num) (s : R) :
  (a * a)%J = Fin s -> exists r : R, a = Fin r.
Proof. unfold JS.mul. destruct a; try done. eauto. Qed.

Lemma js_sqrt_lt_inv (a b : num) :
  (JS.sqrt a <? b)%J = true -> exists r : R, a = Fin r.
Proof.
  unfold JS.lt, JS.sqrt. destruct a; [eauto|..]; destruct b; done.
Qed.

(** The overlap test succeeds only for centres with finite coordinates. *)
Lemma overlap_test_finite (p q : particle) :
  (centreDist p q <? radius p + radius q)%J = true ->
  exists a b c d : R,
    x p = Fin a /\ y p = Fin b /\ x q = Fin c /\ y q = Fin d.
Proof.
  unfold centreDist. cbn zeta. intros H.
  apply js_sqrt_lt_inv in H as (s & H).
  apply js_add_fin_inv in H as (sx & sy & Hx & Hy).
  apply js_mul_self_fin_inv in Hx as (dx & Hx).
  apply js_mul_self_fin_inv in Hy as (dy & Hy).
  apply js_sub_fin_inv in Hx as (c & a & Hc & Ha).
  apply js_sub_fin_inv in Hy as (d & b & Hd & Hb).
  now exists a, b, c, d.
Qed.

(** Whatever the positions are, resolving a pair with finite velocities
    and radii changes the two velocities by opposite finite amounts and
    keeps the radii. *)
Lemma collidePair_velocities (p q : particle) (u1 v1 u2 v2 : R) :
  vx p = Fin u1 -> vy p = Fin v1 -> vx q = Fin u2 -> vy q = Fin v2 ->
  finite_rad p -> finite_rad q ->
  exists jx jy : R,
    vx (collidePair p q).1 = Fin (u1 - jx)
    /\ vy (collidePair p q).1 = Fin (v1 - jy)
    /\ vx (collidePair p q).2 = Fin (u2 + jx)
    /\ vy (collidePair p q).2 = Fin (v2 + jy)
    /\ radius (collidePair p q).1 = radius p
    /\ radius (collidePair p q).2 = radius q.
Proof.
  intros Hu1 Hv1 Hu2 Hv2 (r1 & Hr1) (r2 & Hr2).
  destruct (centreDist p q <? radius p + radius q)%J eqn:Htest.
  - destruct (overlap_test_finite p q Htest)
      as (a & b & c & d & Ha & Hb & Hc & Hd).
    destruct p as [px py pu pv pr], q as [qx qy qu qv qr]. cbn in *. subst.
    destruct (handleCollision_opposite a b u1 v1 r1 c d u2 v2 r2)
      as (jx & jy & Hhc).
    exists jx, jy. unfold collidePair. unfold centreDist in Htest.
    cbn zeta in *. cbn [x y vx vy radius] in *. rewrite Htest, Hhc. done.
  - rewrite collidePair_no_overlap by done. exists 0, 0. cbn.
    now rewrite Hu1, Hv1, Hu2, Hv2, !Rminus_0_r, !Rplus_0_r.
Qed.

Lemma Rsum_insert (l : list R) (i : nat) (a b : R) :
  l !! i = Some a -> Rsum (<[i := b]> l) = Rsum l - a + b.
Proof.
  revert i. induction l as [|c l IH]; intros [|i] Hi; try done.
  - injection Hi as ->. cbn. lra.
  - change (c + Rsum (<[i := b]> l) = c + Rsum l - a + b).
    rewrite (IH i Hi). lra.
Qed.

Lemma vx_R_fin (p : particle) (u : R) : vx p = Fin u -> vx_R p = u.
Proof. unfold vx_R. now intros ->. Qed.

Lemma vy_R_fin (p : particle) (v : R) : vy p = Fin v -> vy_R p = v.
Proof. unfold vy_R. now intros ->. Qed.

Lemma finite_rad_of_map (ps0 ps : list particle) :
  Forall finite_rad ps0 -> map radius ps = map radius ps0 ->
  Forall finite_rad ps.
Proof.
  intros H0 Hmap. apply Forall_lookup. intros i p Hi.
  assert (Hr : map radius ps !! i = Some (radius p))
    by now rewrite list_lookup_fmap, Hi.
  rewrite Hmap, list_lookup_fmap in Hr.
  destruct (ps0 !! i) as [p0|] eqn:Hi0; [|done]. cbn in Hr.
  eapply Forall_lookup in H0 as (r & Hr0); [|exact Hi0].
  exists r. congruence.
Qed.

Lemma pairStep_invariant (ps0 ps : list particle) (i j : nat) :
  (i < j)%nat -> Forall finite_rad ps0 ->
  pass_invariant ps0 ps -> pass_invariant ps0 (pairStep i j ps).
Proof.
  intros Hij Hrad0 (Hvel & Hrad & Hmx & Hmy). unfold pairStep.
  destruct (ps !! i) as [p|] eqn:Hi; [|done].
  destruct (ps !! j) as [q|] eqn:Hj; [|done].
  pose proof (finite_rad_of_map ps0 ps Hrad0 Hrad) as Hfr.
  pose proof (proj1 (Forall_lookup _ _) Hvel i p Hi) as (u1 & v1 & Hu1 & Hv1).
  pose proof (proj1 (Forall_lookup _ _) Hvel j q Hj) as (u2 & v2 & Hu2 & Hv2).
  pose proof (proj1 (Forall_lookup _ _) Hfr i p Hi) as Hrp.
  pose proof (proj1 (Forall_lookup _ _) Hfr j q Hj) as Hrq.
  destruct (collidePair_velocities p q u1 v1 u2 v2 Hu1 Hv1 Hu2 Hv2 Hrp Hrq)
    as (jx & jy & Ha & Hb & Hc & Hd & Hr1 & Hr2).
  destruct (collidePair p q) as [p' q']. cbn [fst snd] in *.
  assert (Hj' : <[i := p']> ps !! j = Some q)
    by (rewrite list_lookup_insert_ne by lia; done).
  split; [|split; [|split]].
  - apply Forall_insert; [apply Forall_insert; [done|]|].
    + now exists (u1 - jx), (v1 - jy).
    + now exists (u2 + jx), (v2 + jy).
  - rewrite <- Hrad, !list_fmap_insert, Hr1, Hr2.
    rewrite (list_insert_id _ i (radius p))
      by now rewrite list_lookup_fmap, Hi.
    now rewrite (list_insert_id _ j (radius q))
      by now rewrite list_lookup_fmap, Hj.
  - rewrite <- Hmx. unfold momentumX_R. rewrite !list_fmap_insert.
    rewrite (Rsum_insert _ j (vx_R q))
      by (rewrite <- list_fmap_insert, list_lookup_fmap, Hj'; done).
    rewrite (Rsum_insert _ i (vx_R p)) by now rewrite list_lookup_fmap, Hi.
    rewrite (vx_R_fin p u1), (vx_R_fin q u2), (vx_R_fin p' (u1 - jx)),
      (vx_R_fin q' (u2 + jx)) by done.
    change (vx_R <$> ps) with (map vx_R ps). lra.
  - rewrite <- Hmy. unfold momentumY_R. rewrite !list_fmap_insert.
    rewrite (Rsum_insert _ j (vy_R q))
      by (rewrite <- list_fmap_insert, list_lookup_fmap, Hj'; done).
    rewrite (Rsum_insert _ i (vy_R p)) by now rewrite list_lookup_fmap, Hi.
    rewrite (vy_R_fin p v1), (vy_R_fin q v2), (vy_R_fin p' (v1 - jy)),
      (vy_R_fin q' (v2 + jy)) by done.
    change (vy_R <$> ps) with (map vy_R ps). lra.
Qed.

Lemma innerLoop_invariant (ps0 ps : list particle) (i : nat) :
  Forall finite_rad ps0 ->
  pass_invariant ps0 ps -> pass_invariant ps0 (innerLoop i ps).
Proof.
  intros Hrad0. unfold innerLoop.
  assert (Hall : Forall (fun j => (i < j)%nat) (seq (S i) (length ps - S i)))
    by (apply Forall_forall; intros j Hj%list_elem_of_In%in_seq; lia).
  revert Hall. generalize (seq (S i) (length ps - S i)). intros js Hall.
  revert ps. induction Hall as [|j js Hj _ IH]; intros ps Hinv; [done|].
  cbn [foldl]. apply IH. now apply pairStep_invariant.
Qed.

Lemma particleCollisions_invariant (ps : list particle) :
  Forall finite_vel ps -> Forall finite_rad ps ->
  pass_invariant ps (particleCollisions ps).
Proof.
  intros Hvel Hrad. unfold particleCollisions.
  assert (Hinv : pass_invariant ps ps) by done.
  revert Hinv. generalize (seq 0 (length ps)). intros js.
  generalize ps at 2 4 as acc. 
  induction js as [|i js IH]; intros acc Hinv; [done|].
  cbn [foldl]. apply IH. now apply innerLoop_invariant.
Qed.

(** The collision pass conserves the total momentum of the ensemble and
    keeps every velocity finite and every radius as it was, for any
    ensemble with finite velocities and radii, whatever the positions
    are (coincident centres included). *)
Theorem particleCollisions_momentum (ps : list particle) :
  Forall finite_vel ps -> Forall finite_rad ps ->
  Forall finite_vel (particleCollisions ps)
  /\ map radius (particleCollisions ps) = map radius ps
  /\ momentumX_R (particleCollisions ps) = momentumX_R ps
  /\ momentumY_R (particleCollisions ps) = momentumY_R ps.
Proof. apply particleCollisions_invariant. Qed.

Lemma particleCollisions_momentum_witness :
  Forall finite_vel (particleCollisions (wallCollisions (integrate cornered)))
  /\ map radius (particleCollisions (wallCollisions (integrate cornered)))
     = map radius (wallCollisions (integrate cornered))
  /\ momentumX_R (particleCollisions (wallCollisions (integrate cornered)))
     = momentumX_R (wallCollisions (integrate cornered))
  /\ momentumY_R (particleCollisions (wallCollisions (integrate cornered)))
     = momentumY_R (wallCollisions (integrate cornered)).
Proof.
  apply (particleCollisions_momentum (wallCollisions (integrate cornered)));
    rewrite cornered_walled; repeat constructor;
    try (now eexists _, _); now eexists.
Defined.

(** ** Invariants of whole frames *)

Lemma pairStep_length (i j : nat) (ps : list particle) :
  length (pairStep i j ps) = length ps.
Proof.
  unfold pairStep. repeat case_match; try done. now rewrite !length_insert.
Qed.

Lemma innerLoop_length (i : nat) (ps : list particle) :
  length (innerLoop i ps) = length ps.
Proof.
  unfold innerLoop. generalize (seq (S i) (length ps - S i)). intros js.
  revert ps. induction js as [|j js IH]; intros ps; [done|].
  cbn [foldl]. now rewrite IH, pairStep_length.
Qed.

Lemma particleCollisions_length (ps : list particle) :
  length (particleCollisions ps) = length ps.
Proof.
  unfold particleCollisions. generalize (seq 0 (length ps)). intros js.
  revert ps. induction js as [|i js IH]; intros ps; [done|].
  cbn [foldl]. now rewrite IH, innerLoop_length.
Qed.

(** The ensemble keeps its size: no frame adds or removes a particle,
    for any temperature and any state (non-finite numbers included). *)
Theorem frames_length (T : num) (n : nat) (ps : list particle) :
  length (frames T n ps) = length ps.
Proof.
  induction n as [|n IH]; [done|]. cbn [frames].
  unfold updateParticles, thermostat, wallCollisions, integrate.
  now rewrite length_map, particleCollisions_length, !length_map.
Qed.

Lemma integrate_finite_vel (ps : list particle) :
  Forall finite_vel ps -> Forall finite_vel (integrate ps).
Proof.
  intros H. apply Forall_fmap. eapply Forall_impl; [exact H|]. now intros p Hp.
Qed.

Lemma wallCollisions_finite_vel (ps : list particle) :
  Forall finite_vel ps -> Forall finite_vel (wallCollisions ps).
Proof.
  intros H. apply Forall_fmap. eapply Forall_impl; [exact H|].
  intros p Hp. cbn. now apply wallY_finite_vel, wallX_finite_vel.
Qed.

Lemma wallCollisions_radius (ps : list particle) :
  map radius (wallCollisions (integrate ps)) = map radius ps.
Proof.
  unfold wallCollisions, integrate. rewrite <- !list_fmap_compose.
  apply list_fmap_ext. intros i p _. cbn.
  now rewrite wallY_radius, wallX_radius.
Qed.

(** For a temperature [T >= 0], velocities and radii that are finite
    stay finite through any number of frames, and the radii never
    change; this holds also when positions have become [NaN]. *)
Theorem frames_velocities_finite (T : R) (n : nat) (ps : list particle) :
  0 <= T -> Forall finite_vel ps -> Forall finite_rad ps ->
  Forall finite_vel (frames T n ps)
  /\ map radius (frames T n ps) = map radius ps.
Proof.
  intros HT Hvel Hrad. induction n as [|n [IHv IHr]]; [done|].
  cbn [frames]. unfold updateParticles.
  set (walled := wallCollisions (integrate (frames T n ps))).
  assert (Hwv : Forall finite_vel walled)
    by now apply wallCollisions_finite_vel, integrate_finite_vel.
  assert (Hwr : map radius walled = map radius ps)
    by (unfold walled; now rewrite wallCollisions_radius).
  assert (Hwf : Forall finite_rad walled).
  { eapply finite_rad_of_map; [exact Hrad|exact Hwr]. }
  destruct (particleCollisions_invariant walled Hwv Hwf) as (Hcv & Hcr & _).
  split.
  - now apply thermostat_finite_vel.
  - destruct (thermostat_positions T (particleCollisions walled))
      as (_ & _ & ->). now rewrite Hcr.
Qed.

Lemma frames_velocities_finite_witness :
  Forall finite_vel (frames 100 3 cornered)
  /\ map radius (frames 100 3 cornered) = map radius cornered.
Proof.
  apply (frames_velocities_finite 100 3 cornered).
  - lra.
  - repeat constructor; now eexists _, _.
  - repeat constructor; now eexists.
Defined.

(** ** Further properties of the thermostat *)

Lemma speed_R_zero (p : particle) :
  finite_vel p -> speed_R p = 0 -> vx p = Fin 0 /\ vy p = Fin 0.
Proof.
  intros (u & v & Hu & Hv). unfold speed_R. rewrite Hu, Hv. intros H.
  apply sqrt_sumsq_zero in H as [-> ->]. done.
Qed.

Lemma sumSpeed_R_zero (ps : list particle) :
  Forall finite_vel ps -> sumSpeed_R ps = 0 -> Forall at_rest ps.
Proof.
  induction 1 as [|p ps Hp Hps IH]; cbn [sumSpeed_R]; intros H; [done|].
  pose proof (speed_R_nonneg p). pose proof (sumSpeed_R_nonneg ps).
  constructor.
  - apply speed_R_zero; [done|lra].
  - apply IH. lra.
Qed.

(** Rescaling twice is the same as rescaling once: the thermostat is
    idempotent for every temperature [T >= 0] on ensembles with finite
    velocities. *)
Theorem thermostat_idempotent (T : R) (ps : list particle) :
  0 <= T -> Forall finite_vel ps ->
  thermostat T (thermostat T ps) = thermostat T ps.
Proof.
  intros HT Hf.
  destruct ps as [|p0 ps0] eqn:Eps; [done|]. rewrite <- Eps in *.
  assert (Hne : ps <> []) by now rewrite Eps.
  pose proof (thermostat_finite_vel T ps HT Hf) as Hf'.
  rewrite (thermostat_fin T (thermostat T ps)) by done.
  rewrite (thermostat_fin T ps) by done.
  set (c := 0.5 * sqrt T / divisor_R ps).
  set (scaled := map (fun p => set_vel p (vx p * Fin c)%J (vy p * Fin c)%J) ps).
  set (c' := 0.5 * sqrt T / divisor_R scaled).
  assert (Hn : 0 < INR (length ps)) by now apply length_INR_pos.
  assert (Hd : 0 <= 0.5 * sqrt T) by (pose proof (sqrt_pos T); lra).
  assert (Hdiv : 0 < divisor_R ps) by now apply divisor_R_pos.
  assert (Hc : 0 <= c) by (apply Rdiv_nonneg; lra).
  assert (Hsum : sumSpeed_R scaled = c * sumSpeed_R ps)
    by now apply sumSpeed_R_scaled.
  assert (Hlen : length scaled = length ps) by apply length_map.
  pose proof (sumSpeed_R_nonneg ps) as HS.
  unfold scaled at 1. rewrite <- list_fmap_compose.
  apply list_eq_Forall2, Forall2_fmap, Forall_Forall2_diag.
  destruct (decide (sumSpeed_R ps = 0)) as [Hz|Hnz].
  - (* every particle is at rest *)
    pose proof (sumSpeed_R_zero ps Hf Hz) as Hrest.
    eapply Forall_impl; [exact Hrest|]. intros p [Hu Hv].
    unfold set_vel. cbn. rewrite Hu, Hv. js_fin.
    f_equal; f_equal; ring.
  - (* some particle moves: the second scale factor leaves [c] alone *)
    assert (Hcc : c * c' = c).
    { assert (Havg : sumSpeed_R ps / INR (length ps) <> 0).
      { intros E. apply Hnz.
        apply (Rmult_eq_reg_r (/ INR (length ps)));
          [|apply Rinv_neq_0_compat; lra].
        unfold Rdiv in E. lra. }
      assert (Hdp : divisor_R ps = sumSpeed_R ps / INR (length ps))
        by (unfold divisor_R; now rewrite decide_False).
      assert (Hmean : sumSpeed_R scaled / INR (length scaled) = 0.5 * sqrt T).
      { rewrite Hsum, Hlen. unfold c. rewrite Hdp. field. split; lra. }
      unfold c'. unfold divisor_R. rewrite Hmean.
      case_decide as Hd0.
      - unfold c. rewrite Hd0. unfold Rdiv. ring.
      - unfold Rdiv at 1. rewrite Rinv_r by done. ring. }
    eapply Forall_impl; [exact Hf|]. intros p (u & v & Hu & Hv).
    unfold set_vel. cbn. rewrite Hu, Hv. js_fin.
    f_equal; f_equal; rewrite Rmult_assoc, Hcc; done.
Qed.

Lemma thermostat_idempotent_witness :
  thermostat 100 (thermostat 100 crossing) = thermostat 100 crossing.
Proof.
  apply (thermostat_idempotent 100 crossing).
  - lra.
  - repeat constructor; now eexists _, _.
Defined.

Lemma newParticle_fin (T rx ry ra : R) :
  0 <= T ->
  newParticle T rx ry ra
  = Particle (rx * 400) (ry * 400)
             (0.5 * sqrt T * cos (ra * 2 * PI))
             (0.5 * sqrt T * sin (ra * 2 * PI)) 5.
Proof.
  intros HT. unfold newParticle, width, height, baseSpeedFactor. cbn zeta.
  rewrite js_sqrt_fin by done. js_fin. cbn [JS.cos JS.sin]. now js_fin.
Qed.

Lemma newParticle_speed (T rx ry ra : R) :
  0 <= T -> speed_R (newParticle T rx ry ra) = 0.5 * sqrt T.
Proof.
  intros HT. rewrite newParticle_fin by done. unfold speed_R. cbn.
  set (s := 0.5 * sqrt T). set (a := ra * 2 * PI).
  assert (Hs : 0 <= s) by (unfold s; pose proof (sqrt_pos T); lra).
  apply sqrt_of_square; [done|].
  pose proof (sin2_cos2 a) as H. unfold Rsqr in H.
  transitivity (s * s * (sin a * sin a + cos a * cos a)); [ring|].
  rewrite H. ring.
Qed.

Lemma sumSpeed_R_const (ps : list particle) (s : R) :
  Forall (fun p => speed_R p = s) ps -> sumSpeed_R ps = INR (length ps) * s.
Proof.
  induction 1 as [|p ps Hp _ IH]; [cbn; lra|].
  cbn [sumSpeed_R length]. rewrite S_INR, IH, Hp. lra.
Qed.

Lemma initParticles_each (T : R) (random : nat -> num) (p : particle) :
  0 <= T -> (forall k, unit_interval (random k)) ->
  p ∈ initParticles T random [] ->
  finite p /\ radius5 p /\ on_canvas p /\ speed_R p = 0.5 * sqrt T.
Proof.
  intros HT Hrand Hp. unfold initParticles in Hp. cbn [length Nat.eqb] in Hp.
  apply list_elem_of_fmap in Hp as (i & -> & _).
  destruct (Hrand (3 * i)%nat) as (rx & -> & Hrx).
  destruct (Hrand (3 * i + 1)%nat) as (ry & -> & Hry).
  destruct (Hrand (3 * i + 2)%nat) as (ra & -> & Hra).
  split; [|split; [|split]].
  - rewrite newParticle_fin by done. now eexists _, _, _, _, _.
  - reflexivity.
  - rewrite newParticle_fin by done. eexists _, _.
    split; [reflexivity|]. split; [reflexivity|]. lra.
  - now apply newParticle_speed.
Qed.

(** The initialisation effect creates 50 particles of radius 5 from an empty
    array, with finite coordinates, on the canvas [[0, 400) x [0, 400)],
    each with speed exactly [0.5 * sqrt T]; so the mean speed of the new
    ensemble is already the thermostat's target.  A non-empty array is
    left as it is. *)
Theorem initParticles_ensemble
    (T : R) (random : nat -> num) (current : list particle) :
  0 <= T -> (forall k, unit_interval (random k)) ->
  let ps := initParticles T random [] in
  length ps = 50%nat
  /\ Forall finite ps /\ Forall radius5 ps /\ Forall on_canvas ps
  /\ Forall (fun p => speed p = Fin (0.5 * sqrt T)) ps
  /\ avgSpeed ps = desiredAvgSpeed T
  /\ (current <> [] -> initParticles T random current = current).
Proof.
  intros HT Hrand ps.
  assert (Hall : Forall (fun p => finite p /\ radius5 p /\ on_canvas p
                                  /\ speed_R p = 0.5 * sqrt T) ps).
  { apply Forall_forall. intros p Hp. now apply (initParticles_each T random). }
  assert (Hlen : length ps = 50%nat)
    by (unfold ps, initParticles; cbn [length Nat.eqb];
        now rewrite length_map, length_seq).
  assert (Hfin : Forall finite ps)
    by (eapply Forall_impl; [exact Hall|]; now intros p (? & _)).
  assert (Hsp : Forall (fun p => speed_R p = 0.5 * sqrt T) ps)
    by (eapply Forall_impl; [exact Hall|]; now intros p (_ & _ & _ & ?)).
  split; [done|]. split; [done|].
  split; [eapply Forall_impl; [exact Hall|]; now intros p (_ & ? & _)|].
  split; [eapply Forall_impl; [exact Hall|]; now intros p (_ & _ & ? & _)|].
  split; [|split].
  - eapply Forall_impl; [exact Hall|]. intros p (Hf & _ & _ & Hs).
    rewrite speed_fin by now apply finite_finite_vel. now rewrite Hs.
  - assert (Hne : ps <> []) by (intros E; now rewrite E in Hlen).
    rewrite avgSpeed_fin by (done || now apply Forall_finite_vel).
    rewrite (sumSpeed_R_const ps (0.5 * sqrt T)) by done.
    unfold desiredAvgSpeed, baseSpeedFactor. rewrite js_sqrt_fin by done.
    js_fin. f_equal. rewrite Hlen. field.
    apply not_0_INR. lia.
  - intros Hne. unfold initParticles. now destruct current.
Qed.

Lemma initParticles_ensemble_witness :
  length (initParticles 100 (fun _ => Fin 0.5) []) = 50%nat
  /\ avgSpeed (initParticles 100 (fun _ => Fin 0.5) []) = desiredAvgSpeed 100.
Proof.
  destruct (initParticles_ensemble 100 (fun _ => Fin 0.5) crossing)
    as (Hlen & _ & _ & _ & _ & Havg & _).
  - lra.
  - intros k. exists 0.5. split; [reflexivity|lra].
  - now split.
Defined.

(** ** Shape of the density *)

Lemma Rpower_pos (a b : R) : 0 < Rpower a b.
Proof. unfold Rpower. apply exp_pos. Qed.

Lemma density_scale_pos (T : R) : 0 < density_scale T.
Proof.
  unfold density_scale. pose proof sqrt_PI_pos.
  pose proof (Rpower_pos (2 / T_eff_R T) 1.5).
  assert (0 < 2 / sqrt PI) by (apply Rdiv_lt_0_compat; lra).
  assert (0 < 0.72 * (2 / sqrt PI)) by nra.
  assert (0 < 0.72 * (2 / sqrt PI) * Rpower (2 / T_eff_R T) 1.5) by nra.
  nra.
Qed.

Lemma density_spec_pos_temp (E T : R) :
  0 < T_eff_R T ->
  density_spec E T = density_scale T * (sqrt E * exp (- E / T_eff_R T)).
Proof.
  intros HT. unfold density_spec, density_scale.
  rewrite decide_False by lra. ring.
Qed.

Lemma density_spec_nonneg (E T : R) : 0 <= density_spec E T.
Proof.
  destruct (decide (T_eff_R T <= 0)) as [Ht|Ht].
  - unfold density_spec. rewrite decide_True by done. lra.
  - rewrite density_spec_pos_temp by lra.
    pose proof (density_scale_pos T). pose proof (sqrt_pos E).
    pose proof (exp_pos (- E / T_eff_R T)).
    apply Rmult_le_pos; [lra|]. apply Rmult_le_pos; lra.
Qed.

Lemma density_spec_pos (E T : R) :
  0 < E -> 0 < T_eff_R T -> 0 < density_spec E T.
Proof.
  intros HE HT. rewrite density_spec_pos_temp by done.
  pose proof (density_scale_pos T). pose proof (sqrt_lt_R0 E HE).
  pose proof (exp_pos (- E / T_eff_R T)).
  apply Rmult_lt_0_compat; [lra|]. apply Rmult_lt_0_compat; lra.
Qed.

(** [mbDistribution] never returns a negative or non-finite number on an
    energy [E >= 0] and a finite temperature: it is [0] at [E = 0] and
    whenever the effective temperature is not positive, and it is
    positive where the chart uses it, on the sampled energies
    [0 < E <= 600] at a temperature of the slider, [100 <= T <= 500]. *)
Theorem mbDistribution_sign (E T : R) :
  0 <= E ->
  exists f : R,
    Chart.mbDistribution E T = Fin f /\ 0 <= f
    /\ (E = 0 -> f = 0)
    /\ (0 < E <= 600 -> 100 <= T <= 500 -> 0 < f)
    /\ (0.5 * T + 50 <= 0 -> f = 0).
Proof.
  intros HE. exists (density_spec E T).
  split; [now apply mbDistribution_fin|].
  split; [apply density_spec_nonneg|]. split; [|split].
  - intros ->. unfold density_spec. case_decide; [done|].
    rewrite sqrt_0. ring.
  - intros HE' HT. apply density_spec_pos; [lra|]. unfold T_eff_R. lra.
  - intros HT. unfold density_spec, T_eff_R. now rewrite decide_True.
Qed.

Lemma mbDistribution_sign_witness :
  exists f : R, Chart.mbDistribution 100 300 = Fin f /\ 0 < f.
Proof.
  destruct (mbDistribution_sign 100 300) as (f & Hf & _ & _ & Hpos & _).
  - lra.
  - exists f. split; [exact Hf|]. apply Hpos; lra.
Defined.

(** [sqrt t * exp (- t / 2)] is largest at [t = 1]. *)
Lemma sqrt_exp_peak (t : R) :
  0 <= t -> t <> 1 -> sqrt t * exp (- t / 2) < exp (- 1 / 2).
Proof.
  intros Ht Hne.
  assert (Hlt : t < exp (t - 1)).
  { pose proof (exp_ineq1 (t - 1) ltac:(lra)). lra. }
  assert (Hsq : sqrt (exp (t - 1)) = exp ((t - 1) / 2)).
  { apply sqrt_of_square; [left; apply exp_pos|].
    rewrite <- exp_plus. f_equal. lra. }
  assert (Hs : sqrt t < exp ((t - 1) / 2)).
  { rewrite <- Hsq. apply sqrt_lt_1_alt. lra. }
  pose proof (exp_pos (- t / 2)) as He.
  replace (exp (- 1 / 2)) with (exp ((t - 1) / 2) * exp (- t / 2))
    by (rewrite <- exp_plus; f_equal; lra).
  now apply Rmult_lt_compat_r.
Qed.

(** For a positive effective temperature the density has its only
    maximum over [E >= 0] at half the effective temperature. *)
Lemma density_spec_peak (E T : R) :
  0 <= E -> 0 < T_eff_R T -> E <> T_eff_R T / 2 ->
  density_spec E T < density_spec (T_eff_R T / 2) T.
Proof.
  intros HE HT Hne. rewrite !density_spec_pos_temp by done.
  apply Rmult_lt_compat_l; [apply density_scale_pos|].
  set (tau := T_eff_R T) in *. set (t := 2 * E / tau).
  assert (Ht0 : 0 <= t) by (unfold t; apply Rdiv_nonneg; lra).
  assert (Ht1 : t <> 1).
  { unfold t. intros Eq. apply Hne.
    apply (Rmult_eq_compat_r tau) in Eq. field_simplify in Eq; lra. }
  assert (HhalfE : E = tau / 2 * t) by (unfold t; field; lra).
  rewrite HhalfE at 1. rewrite sqrt_mult by lra.
  replace (- E / tau) with (- t / 2) by (unfold t; field; lra).
  replace (- (tau / 2) / tau) with (- 1 / 2) by (field; lra).
  rewrite Rmult_assoc. apply Rmult_lt_compat_l; [apply sqrt_lt_R0; lra|].
  now apply sqrt_exp_peak.
Qed.

(** The value [mbDistribution] returns at any energy [E >= 0] is at most
    the one at [E = T_eff / 2], and smaller at any other energy. *)
Theorem mbDistribution_peak (E T : R) :
  0 <= E -> 0 < 0.5 * T + 50 ->
  exists f m : R,
    Chart.mbDistribution E T = Fin f
    /\ Chart.mbDistribution (Fin ((0.5 * T + 50) / 2)) T = Fin m
    /\ f <= m /\ (E <> (0.5 * T + 50) / 2 -> f < m).
Proof.
  intros HE HT. fold (T_eff_R T) in *.
  exists (density_spec E T), (density_spec (T_eff_R T / 2) T).
  rewrite !mbDistribution_fin by lra. split; [done|]. split; [done|].
  destruct (decide (E = T_eff_R T / 2)) as [->|Hne].
  - split; [lra|done].
  - pose proof (density_spec_peak E T HE HT Hne). split; [lra|done].
Qed.

Lemma mbDistribution_peak_witness :
  exists f m : R,
    Chart.mbDistribution 400 300 = Fin f
    /\ Chart.mbDistribution (Fin ((0.5 * 300 + 50) / 2)) 300 = Fin m
    /\ f <= m /\ (400 <> (0.5 * 300 + 50) / 2 -> f < m).
Proof. apply (mbDistribution_peak 400 300); lra. Defined.

(** ** The most probable energy *)

Section Mode.

Variable T : R.

Let f (i : nat) : R := density_spec (INR i) T.

(** The loop over the samples [a, a + 1, ..., a + n - 1], entered with a
    finite running maximum [m] found at sample [k]: it ends with the
    largest value seen and the first sample that reaches it. *)
Lemma mode_loop (n a k : nat) (m : R) :
  exists (k' : nat) (m' : R),
    foldl (fun '(maxY, E_mode) pt =>
             if (Chart.y pt >? maxY)%J then (Chart.y pt, Chart.x pt)
             else (maxY, E_mode))
          (Fin m, Fin (INR k)) (sampled T (seq a n))
    = (Fin m', Fin (INR k'))
    /\ m <= m'
    /\ (forall i, (a <= i < a + n)%nat -> f i <= m')
    /\ ((m' = m /\ k' = k)
        \/ ((a <= k' < a + n)%nat /\ m' = f k' /\ m < m'
            /\ forall i, (a <= i < k')%nat -> f i < m')).
Proof.
  revert a k m. induction n as [|n IH]; intros a k m.
  - exists k, m. cbn. split; [done|]. split; [lra|].
    split; [intros i Hi; lia|]. now left.
  - cbn [seq sampled map foldl Chart.x Chart.y]. fold (sampled T (seq (S a) n)).
    fold (f a). rewrite js_gt_fin. case_bool_decide as Hgt.
    + destruct (IH (S a) a (f a)) as (k' & m' & Heq & Hle & Hall & Hcase).
      exists k', m'. split; [done|]. split; [lra|]. split.
      * intros i Hi. destruct (decide (i = a)) as [->|]; [done|].
        apply Hall. lia.
      * right. destruct Hcase as [[-> ->]|(Hk & Hm & Hlt & Hfirst)].
        -- split; [lia|]. split; [done|]. split; [done|]. intros i Hi. lia.
        -- split; [lia|]. split; [done|]. split; [lra|]. intros i Hi.
           destruct (decide (i = a)) as [->|]; [lra|]. apply Hfirst. lia.
    + destruct (IH (S a) k m) as (k' & m' & Heq & Hle & Hall & Hcase).
      exists k', m'. split; [done|]. split; [done|]. split.
      * intros i Hi. destruct (decide (i = a)) as [->|]; [lra|].
        apply Hall. lia.
      * destruct Hcase as [[-> ->]|(Hk & Hm & Hlt & Hfirst)]; [now left|].
        right. split; [lia|]. split; [done|]. split; [done|]. intros i Hi.
        destruct (decide (i = a)) as [->|]; [lra|]. apply Hfirst. lia.
Qed.

(** The loop of the chart: [maxY] starts at [-Infinity], so the first
    sample always replaces it. *)
Lemma mostProbable_first_max :
  exists k : nat,
    (k <= 600)%nat
    /\ Chart.mostProbable T = (Fin (f k), Fin (INR k))
    /\ (forall i, (i <= 600)%nat -> f i <= f k)
    /\ (forall i, (i < k)%nat -> f i < f k).
Proof.
  unfold Chart.mostProbable. rewrite dynamicData_sampled.
  replace (seq 0 (600 + 1)) with (0%nat :: seq 1 600)
    by (now rewrite Nat.add_1_r).
  change (sampled T (0%nat :: seq 1 600))
    with (Chart.Point (INR 0) (f 0) :: sampled T (seq 1 600)).
  cbn [foldl Chart.x Chart.y].
  change (Fin (f 0) >? NInf)%J with true. cbn iota.
  destruct (mode_loop 600 1 0 (f 0)) as (k' & m' & Heq & Hle & Hall & Hcase).
  rewrite Heq.
  destruct Hcase as [[-> ->]|(Hk & -> & Hlt & Hfirst)].
  - exists 0%nat. split; [lia|]. split; [done|]. split.
    + intros i Hi. destruct (decide (i = 0%nat)) as [->|]; [lra|].
      apply Hall. lia.
    + intros i Hi. lia.
  - exists k'. split; [lia|]. split; [done|]. split.
    + intros i Hi. destruct (decide (i = 0%nat)) as [->|]; [lra|].
      apply Hall. lia.
    + intros i Hi. destruct (decide (i = 0%nat)) as [->|]; [done|].
      apply Hfirst. lia.
Qed.

End Mode.

(** The loop returns a sampled energy [k] in [0 .. 600] together with the
    value of [mbDistribution] there; no sample has a larger value, and
    every earlier sample has a smaller one (the first maximum wins). *)
Theorem mostProbable_argmax (T : R) :
  exists k : nat,
    (k <= 600)%nat
    /\ Chart.mostProbable T = (Chart.mbDistribution (INR k) T, Fin (INR k))
    /\ (forall i, (i <= 600)%nat ->
        (Chart.mbDistribution (INR i) T >? Chart.mbDistribution (INR k) T)%J
        = false)
    /\ (forall i, (i < k)%nat ->
        (Chart.mbDistribution (INR i) T <? Chart.mbDistribution (INR k) T)%J
        = true).
Proof.
  destruct (mostProbable_first_max T) as (k & Hk & Heq & Hmax & Hfirst).
  exists k. split; [done|]. split.
  { rewrite mbDistribution_fin by apply pos_INR. done. }
  split; intros i Hi; rewrite !mbDistribution_fin by apply pos_INR.
  - apply js_gt_fin_false. now apply Hmax.
  - apply js_lt_fin_true. now apply Hfirst.
Qed.

(** When half the effective temperature is one of the sampled energies,
    it is the most probable energy the chart reports: for [T = 300] the
    marker sits at [E = 100]. *)
Theorem mostProbable_at_half_T_eff (T : R) (k : nat) :
  0 < 0.5 * T + 50 -> (k <= 600)%nat -> (0.5 * T + 50) / 2 = INR k ->
  Chart.mostProbable T = (Chart.mbDistribution (INR k) T, Fin (INR k)).
Proof.
  intros HT Hk Hhalf. fold (T_eff_R T) in *.
  destruct (mostProbable_first_max T) as (k' & Hk' & Heq & Hmax & _).
  rewrite mbDistribution_fin by apply pos_INR.
  destruct (decide (k' = k)) as [->|Hne]; [done|]. exfalso.
  assert (Hlt : density_spec (INR k') T < density_spec (T_eff_R T / 2) T).
  { apply density_spec_peak; [apply pos_INR|done|].
    rewrite Hhalf. intros E. now apply INR_eq in E. }
  rewrite Hhalf in Hlt. specialize (Hmax k Hk). lra.
Qed.

Lemma mostProbable_at_half_T_eff_witness :
  Chart.mostProbable 300 = (Chart.mbDistribution (INR 100) 300, Fin (INR 100)).
Proof.
  apply (mostProbable_at_half_T_eff 300 100).
  - lra.
  - lia.
  - rewrite INR_IZR_INZ. change (Z.of_nat 100) with 100%Z. lra.
Defined.

(** ** The mean energy and the percentage above the threshold *)

Lemma Rsum_le (g h : nat -> R) (l : list nat) :
  (forall i, i ∈ l -> g i <= h i) -> Rsum (map g l) <= Rsum (map h l).
Proof.
  induction l as [|a l IH]; intros H; cbn [map Rsum]; [lra|].
  assert (g a <= h a) by (apply H; left).
  assert (Rsum (map g l) <= Rsum (map h l))
    by (apply IH; intros i Hi; apply H; now right).
  lra.
Qed.

Lemma Rsum_nonneg (g : nat -> R) (l : list nat) :
  (forall i, i ∈ l -> 0 <= g i) -> 0 <= Rsum (map g l).
Proof.
  induction l as [|a l IH]; intros H; cbn [map Rsum]; [lra|].
  assert (0 <= g a) by (apply H; left).
  assert (0 <= Rsum (map g l)) by (apply IH; intros i Hi; apply H; now right).
  lra.
Qed.

Lemma Rsum_pos (g : nat -> R) (l : list nat) (k : nat) :
  (forall i, i ∈ l -> 0 <= g i) -> k ∈ l -> 0 < g k -> 0 < Rsum (map g l).
Proof.
  induction l as [|a l IH]; intros H Hk Hpos; [by apply elem_of_nil in Hk|].
  cbn [map Rsum].
  assert (0 <= g a) by (apply H; left).
  assert (0 <= Rsum (map g l))
    by (apply Rsum_nonneg; intros i Hi; apply H; now right).
  apply elem_of_cons in Hk as [->|Hk]; [lra|].
  assert (0 < Rsum (map g l))
    by (apply IH; [intros i Hi; apply H; now right|done..]).
  lra.
Qed.

Lemma Rsum_plus (g h : nat -> R) (l : list nat) :
  Rsum (map (fun i => g i + h i) l) = Rsum (map g l) + Rsum (map h l).
Proof. induction l as [|a l IH]; cbn [map Rsum]; [lra|]. rewrite IH. lra. Qed.

Lemma Rsum_scal (c : R) (g : nat -> R) (l : list nat) :
  Rsum (map (fun i => c * g i) l) = c * Rsum (map g l).
Proof. induction l as [|a l IH]; cbn [map Rsum]; [lra|]. rewrite IH. lra. Qed.

Lemma sample_range (i : nat) : i ∈ seq 0 601 <-> (i <= 600)%nat.
Proof. rewrite list_elem_of_In, in_seq. lia. Qed.

Lemma INR_sample (i : nat) : (i <= 600)%nat -> 0 <= INR i <= 600.
Proof.
  intros Hi. split; [apply pos_INR|].
  replace 600 with (INR 600)
    by (rewrite INR_IZR_INZ; now change (Z.of_nat 600) with 600%Z).
  now apply le_INR.
Qed.

Section Summary.

Variable T : R.

Let f (i : nat) : R := density_spec (INR i) T.

Lemma total_density_Rsum : total_density T = Rsum (map f (seq 0 601)).
Proof. unfold total_density. now rewrite sum_f_R0_seq. Qed.

Lemma weighted_density_Rsum :
  weighted_density T = Rsum (map (fun i => INR i * f i) (seq 0 601)).
Proof. unfold weighted_density. now rewrite sum_f_R0_seq. Qed.

Lemma density_above_Rsum (thr : R) :
  density_above thr T
  = Rsum (map (fun i => if decide (thr <= INR i) then f i else 0)
              (seq 0 601)).
Proof. unfold density_above. now rewrite sum_f_R0_seq. Qed.

Lemma total_density_nonneg : 0 <= total_density T.
Proof.
  rewrite total_density_Rsum. apply Rsum_nonneg.
  intros i _. apply density_spec_nonneg.
Qed.

Lemma total_density_pos : 0 < T_eff_R T -> 0 < total_density T.
Proof.
  intros HT. rewrite total_density_Rsum. apply (Rsum_pos _ _ 1%nat).
  - intros i _. apply density_spec_nonneg.
  - apply sample_range. lia.
  - apply density_spec_pos; [cbn; lra|done].
Qed.

Lemma total_density_zero : T_eff_R T <= 0 -> total_density T = 0.
Proof.
  intros HT. rewrite total_density_Rsum.
  replace (map f (seq 0 601)) with (map (fun _ : nat => 0 * 0) (seq 0 601)).
  - rewrite (Rsum_scal 0 (fun _ => 0)). lra.
  - apply map_ext. intros i. unfold f, density_spec.
    rewrite decide_True by done. lra.
Qed.

Lemma weighted_density_bounds :
  0 <= weighted_density T <= 600 * total_density T.
Proof.
  rewrite weighted_density_Rsum, total_density_Rsum, <- Rsum_scal. split.
  - apply Rsum_nonneg. intros i Hi%sample_range.
    pose proof (INR_sample i Hi). pose proof (density_spec_nonneg (INR i) T).
    apply Rmult_le_pos; [lra|done].
  - apply Rsum_le. intros i Hi%sample_range.
    pose proof (INR_sample i Hi). pose proof (density_spec_nonneg (INR i) T).
    apply Rmult_le_compat_r; [done|lra].
Qed.

Lemma weighted_density_strict :
  0 < T_eff_R T -> 0 < weighted_density T < 600 * total_density T.
Proof.
  intros HT.
  assert (Hf1 : 0 < f 1) by (apply density_spec_pos; [cbn; lra|done]).
  assert (H1 : INR 1 = 1) by reflexivity.
  split.
  - rewrite weighted_density_Rsum. apply (Rsum_pos _ _ 1%nat).
    + intros i Hi%sample_range. pose proof (INR_sample i Hi).
      pose proof (density_spec_nonneg (INR i) T).
      apply Rmult_le_pos; [lra|done].
    + apply sample_range. lia.
    + rewrite H1. lra.
  - assert (Hgap : 0 < Rsum (map (fun i => (600 - INR i) * f i) (seq 0 601))).
    { apply (Rsum_pos _ _ 1%nat).
      - intros i Hi%sample_range. pose proof (INR_sample i Hi).
        pose proof (density_spec_nonneg (INR i) T).
        apply Rmult_le_pos; [lra|done].
      - apply sample_range. lia.
      - rewrite H1. lra. }
    assert (Hsplit : 600 * total_density T
                     = Rsum (map (fun i => (600 - INR i) * f i) (seq 0 601))
                       + weighted_density T).
    { rewrite weighted_density_Rsum, total_density_Rsum, <- Rsum_scal,
        <- Rsum_plus.
      f_equal. apply map_ext. intros i. ring. }
    lra.
Qed.

Lemma density_above_bounds (thr : R) :
  0 <= density_above thr T <= total_density T.
Proof.
  rewrite density_above_Rsum, total_density_Rsum. split.
  - apply Rsum_nonneg. intros i _. pose proof (density_spec_nonneg (INR i) T).
    case_decide; [done|lra].
  - apply Rsum_le. intros i _. pose proof (density_spec_nonneg (INR i) T).
    case_decide; unfold f; lra.
Qed.

Lemma density_above_antitone (lo hi : R) :
  lo <= hi -> density_above hi T <= density_above lo T.
Proof.
  intros Hle. rewrite !density_above_Rsum. apply Rsum_le. intros i _.
  pose proof (density_spec_nonneg (INR i) T).
  repeat case_decide; unfold f; lra.
Qed.

Lemma percentageAbove_fin (showCatalyst : bool) :
  Chart.percentageAbove showCatalyst T
  = Fin (if decide (total_density T = 0) then 0
         else density_above (if showCatalyst then 300 else 400) T
              / total_density T * 100).
Proof.
  unfold Chart.percentageAbove. cbn zeta. rewrite area_dynamicData.
  replace (if showCatalyst then Fin 300 else Fin 400)
    with (Fin (if showCatalyst then 300 else 400)) by now destruct showCatalyst.
  rewrite area_above, js_truthy_fin.
  case_bool_decide; case_decide; try done.
  rewrite js_div_fin by done. now js_fin.
Qed.

Lemma E_mean_fin :
  Chart.E_mean T
  = Fin (if decide (total_density T = 0) then 0
         else weighted_density T / total_density T).
Proof.
  unfold Chart.E_mean. rewrite sums_dynamicData, js_truthy_fin.
  case_bool_decide; case_decide; try done. now rewrite js_div_fin.
Qed.

End Summary.

Lemma Rdiv_le_1_scaled (a b c : R) : 0 < b -> a <= c * b -> a / b <= c.
Proof.
  intros Hb H. apply (Rmult_le_reg_r b); [done|].
  unfold Rdiv. rewrite Rmult_assoc, Rinv_l by lra. lra.
Qed.

Lemma Rdiv_lt_1_scaled (a b c : R) : 0 < b -> a < c * b -> a / b < c.
Proof.
  intros Hb H. apply (Rmult_lt_reg_r b); [done|].
  unfold Rdiv. rewrite Rmult_assoc, Rinv_l by lra. lra.
Qed.

(** The mean energy the chart marks is a finite number in [[0, 600]] for
    every finite temperature, and [0] when the effective temperature is
    not positive.  At a temperature of the slider, [100 <= T <= 500],
    the sum [sumF] of the densities is positive, so the value is the
    quotient [sumE / sumF] and not the guard's [0], and it lies strictly
    between [0] and [600]. *)
Theorem E_mean_range (T : R) :
  exists m : R,
    Chart.E_mean T = Fin m /\ 0 <= m <= 600
    /\ (100 <= T <= 500 ->
        exists sumE sumF : R,
          Chart.sums (Chart.dynamicData T) = (Fin sumE, Fin sumF)
          /\ 0 < sumF /\ m = sumE / sumF /\ 0 < m < 600)
    /\ (0.5 * T + 50 <= 0 -> m = 0).
Proof.
  eexists. split; [apply E_mean_fin|].
  pose proof (total_density_nonneg T) as Ht.
  pose proof (weighted_density_bounds T) as Hw.
  split; [|split].
  - case_decide as Hz; [lra|]. split.
    + apply Rdiv_nonneg; lra.
    + apply Rdiv_le_1_scaled; lra.
  - intros HT.
    assert (HT' : 0 < T_eff_R T) by (unfold T_eff_R; lra).
    pose proof (total_density_pos T HT') as Hpos.
    pose proof (weighted_density_strict T HT') as Hs.
    exists (weighted_density T), (total_density T).
    split; [apply sums_dynamicData|]. split; [done|].
    rewrite decide_False by lra. split; [done|]. split.
    + apply Rdiv_lt_0_compat; lra.
    + apply Rdiv_lt_1_scaled; lra.
  - intros HT. fold (T_eff_R T) in HT.
    now rewrite decide_True by now apply total_density_zero.
Qed.

Lemma E_mean_range_witness :
  exists m : R, Chart.E_mean 300 = Fin m /\ 0 < m < 600.
Proof.
  destruct (E_mean_range 300) as (m & Heq & _ & Hpos & _).
  exists m. split; [exact Heq|].
  destruct Hpos as (sumE & sumF & _ & _ & _ & Hm); [lra|exact Hm].
Defined.

(** The percentage above the activation threshold is a finite number in
    [[0, 100]], with or without the catalyst, for every finite
    temperature. *)
Theorem percentageAbove_range (showCatalyst : bool) (T : R) :
  exists q : R,
    Chart.percentageAbove showCatalyst T = Fin q /\ 0 <= q <= 100.
Proof.
  eexists. split; [apply percentageAbove_fin|].
  pose proof (total_density_nonneg T) as Ht.
  pose proof (density_above_bounds T (if showCatalyst then 300 else 400)) as Hb.
  case_decide as Hz; [lra|].
  assert (0 <= density_above (if showCatalyst then 300 else 400) T
               / total_density T <= 1).
  { split; [apply Rdiv_nonneg; lra|apply Rdiv_le_1_scaled; lra]. }
  lra.
Qed.

(** Switching the catalyst on never lowers the percentage above the
    activation threshold (the threshold drops from 400 to 300). *)
Theorem catalyst_raises_percentage (T : R) :
  exists q0 q1 : R,
    Chart.percentageAbove false T = Fin q0
    /\ Chart.percentageAbove true T = Fin q1
    /\ q0 <= q1.
Proof.
  eexists _, _. split; [apply percentageAbove_fin|].
  split; [apply percentageAbove_fin|].
  pose proof (total_density_nonneg T) as Ht.
  pose proof (density_above_antitone T 300 400 ltac:(lra)) as Hle.
  case_decide as Hz; [lra|].
  apply Rmult_le_compat_r; [lra|].
  apply Rmult_le_compat_r; [|done].
  left. apply Rinv_0_lt_compat. lra.
Qed.

(** Changing the temperature leaves no trace of the old one: rescaling
    to [T2] an ensemble that was rescaled to [T1 > 0] gives what
    rescaling the original ensemble to [T2] gives. *)
Theorem thermostat_retarget (T1 T2 : R) (ps : list particle) :
  0 < T1 -> 0 <= T2 -> Forall finite_vel ps ->
  Exists (fun p => speed p <> Fin 0) ps ->
  thermostat T2 (thermostat T1 ps) = thermostat T2 ps.
Proof.
  intros HT1 HT2 Hf Hex.
  assert (Hne : ps <> []) by (intros ->; inversion Hex).
  assert (HS : 0 < sumSpeed_R ps) by now apply sumSpeed_R_pos.
  assert (Hn : 0 < INR (length ps)) by now apply length_INR_pos.
  assert (Havg : 0 < sumSpeed_R ps / INR (length ps))
    by now apply Rdiv_lt_0_compat.
  assert (Hdiv : divisor_R ps = sumSpeed_R ps / INR (length ps))
    by (unfold divisor_R; rewrite decide_False; [done|lra]).
  pose proof (thermostat_finite_vel T1 ps ltac:(lra) Hf) as Hf'.
  rewrite (thermostat_fin T2 (thermostat T1 ps)) by done.
  rewrite (thermostat_fin T1 ps) by (done || lra).
  rewrite (thermostat_fin T2 ps) by done.
  set (c1 := 0.5 * sqrt T1 / divisor_R ps).
  set (scaled :=
         map (fun p => set_vel p (vx p * Fin c1)%J (vy p * Fin c1)%J) ps).
  assert (Hd1 : 0 < 0.5 * sqrt T1) by (pose proof (sqrt_lt_R0 T1 HT1); lra).
  assert (Hc1 : 0 < c1) by (unfold c1; apply Rdiv_lt_0_compat; lra).
  assert (Hsum : sumSpeed_R scaled = c1 * sumSpeed_R ps)
    by (apply sumSpeed_R_scaled; [done|lra]).
  assert (Hlen : length scaled = length ps) by apply length_map.
  assert (Hdiv' : divisor_R scaled = c1 * (sumSpeed_R ps / INR (length ps))).
  { unfold divisor_R. rewrite Hsum, Hlen.
    assert (0 < c1 * (sumSpeed_R ps / INR (length ps)))
      by now apply Rmult_lt_0_compat.
    replace (c1 * sumSpeed_R ps / INR (length ps))
      with (c1 * (sumSpeed_R ps / INR (length ps))) by (field; lra).
    rewrite decide_False; [done|lra]. }
  assert (Hcc : c1 * (0.5 * sqrt T2 / divisor_R scaled)
                = 0.5 * sqrt T2 / divisor_R ps).
  { rewrite Hdiv', Hdiv. field. repeat split; lra. }
  set (c2' := 0.5 * sqrt T2 / divisor_R scaled) in *.
  unfold scaled. rewrite <- list_fmap_compose.
  apply list_eq_Forall2, Forall2_fmap, Forall_Forall2_diag.
  eapply Forall_impl; [exact Hf|]. intros p (u & v & Hu & Hv).
  unfold set_vel. cbn. rewrite Hu, Hv. js_fin.
  f_equal; f_equal; rewrite Rmult_assoc, Hcc; done.
Qed.

Lemma thermostat_retarget_witness :
  thermostat 400 (thermostat 100 crossing) = thermostat 400 crossing.
Proof.
  apply (thermostat_retarget 100 400 crossing).
  - lra.
  - lra.
  - repeat constructor; now eexists _, _.
  - apply Exists_cons_hd. unfold speed. cbn. js_fin.
    replace (sqrt (-5 * -5 + 0 * 0)) with 5
      by (symmetry; apply sqrt_of_square; lra).
    intros E. apply Fin_inj in E. lra.
Defined.

(** ** The colour of a snapshot curve *)

Lemma Int_part_bounds (r : R) (lo hi : Z) :
  IZR lo <= r -> r < IZR hi + 1 -> (lo <= Int_part r <= hi)%Z.
Proof.
  intros Hlo Hhi. destruct (base_Int_part r) as [H1 H2]. split.
  - assert (IZR lo < IZR (Int_part r) + 1) by lra.
    rewrite <- plus_IZR in H. apply lt_IZR in H. lia.
  - assert (IZR (Int_part r) < IZR hi + 1) by lra.
    rewrite <- plus_IZR in H. apply lt_IZR in H. lia.
Qed.

(** For a temperature of the slider range [[100, 500]] both colour
    channels are integers in [0 .. 255]; the curve is pure blue at 100
    and pure red at 500, and the two channels add up to 255 or 256. *)
Theorem getColorForTemperature_channels (T : R) :
  100 <= T <= 500 ->
  exists red blue : Z,
    Chart.getColorForTemperature T = (Fin (IZR red), Fin 0, Fin (IZR blue))
    /\ (0 <= red <= 255)%Z /\ (0 <= blue <= 255)%Z
    /\ (255 <= red + blue <= 256)%Z
    /\ (T = 100 -> red = 0%Z /\ blue = 255%Z)
    /\ (T = 500 -> red = 255%Z /\ blue = 0%Z).
Proof.
  intros HT. unfold Chart.getColorForTemperature. cbn zeta. js_fin.
  rewrite js_div_fin by lra. js_fin. cbn [JS.round].
  set (a := (T - 100) / (500 - 100) * 255).
  replace ((1 - (T - 100) / (500 - 100)) * 255) with (255 - a)
    by (unfold a; field).
  assert (Ha : 0 <= a <= 255).
  { unfold a. split.
    - apply Rmult_le_pos; [apply Rdiv_nonneg|]; lra.
    - assert ((T - 100) / (500 - 100) <= 1)
        by (apply Rdiv_le_1_scaled; lra).
      lra. }
  eexists _, _. split; [reflexivity|].
  destruct (base_Int_part (a + 0.5)) as [Hr1 Hr2].
  destruct (base_Int_part (255 - a + 0.5)) as [Hb1 Hb2].
  pose proof (Int_part_bounds (a + 0.5) 0 255 ltac:(lra) ltac:(lra)) as Hred.
  pose proof (Int_part_bounds (255 - a + 0.5) 0 255 ltac:(lra) ltac:(lra))
    as Hblue.
  split; [done|]. split; [done|]. split; [|split].
  - assert (H1 : IZR 254 < IZR (Int_part (a + 0.5) + Int_part (255 - a + 0.5)))
      by (rewrite plus_IZR; lra).
    assert (H2 : IZR (Int_part (a + 0.5) + Int_part (255 - a + 0.5)) < IZR 257)
      by (rewrite plus_IZR; lra).
    apply lt_IZR in H1, H2. lia.
  - intros ->. assert (a = 0) by (unfold a; field). subst a.
    pose proof (Int_part_bounds ((100 - 100) / (500 - 100) * 255 + 0.5) 0 0
                  ltac:(lra) ltac:(lra)).
    pose proof (Int_part_bounds
                  (255 - (100 - 100) / (500 - 100) * 255 + 0.5) 255 255
                  ltac:(lra) ltac:(lra)).
    lia.
  - intros ->. assert (a = 255) by (unfold a; field). subst a.
    pose proof (Int_part_bounds ((500 - 100) / (500 - 100) * 255 + 0.5) 255 255
                  ltac:(lra) ltac:(lra)).
    pose proof (Int_part_bounds
                  (255 - (500 - 100) / (500 - 100) * 255 + 0.5) 0 0
                  ltac:(lra) ltac:(lra)).
    lia.
Qed.

Lemma getColorForTemperature_channels_witness :
  exists red blue : Z,
    Chart.getColorForTemperature 300
    = (Fin (IZR red), Fin 0, Fin (IZR blue))
    /\ (0 <= red <= 255)%Z /\ (0 <= blue <= 255)%Z.
Proof.
  destruct (getColorForTemperature_channels 300) as (r & b & H & Hr & Hb & _).
  - lra.
  - now exists r, b.
Defined.

(** ** The mean speed at the end of a frame *)

Lemma thermostat_mean_moving (T : R) (ps : list particle) :
  0 <= T -> Forall finite_vel ps -> 0 < sumSpeed_R ps ->
  meanSpeed_R (thermostat T ps) = 0.5 * sqrt T.
Proof.
  intros HT Hf HS.
  assert (Hne : ps <> []) by (intros ->; cbn in HS; lra).
  assert (Hn : 0 < INR (length ps)) by now apply length_INR_pos.
  assert (Havg : 0 < sumSpeed_R ps / INR (length ps))
    by now apply Rdiv_lt_0_compat.
  assert (Hdiv : divisor_R ps = sumSpeed_R ps / INR (length ps))
    by (unfold divisor_R; rewrite decide_False; [done|lra]).
  assert (Hc : 0 <= 0.5 * sqrt T / divisor_R ps).
  { apply Rdiv_nonneg; [|rewrite Hdiv; lra]. pose proof (sqrt_pos T). lra. }
  unfold meanSpeed_R. rewrite thermostat_fin by done.
  rewrite sumSpeed_R_scaled, length_map by done.
  rewrite Hdiv. field. split; lra.
Qed.

Lemma thermostat_keeps_rest (T : R) (ps : list particle) :
  0 <= T -> Forall at_rest ps -> Forall at_rest (thermostat T ps).
Proof.
  intros HT Hrest. destruct ps as [|p0 ps0] eqn:Eps; [done|].
  rewrite <- Eps in *. assert (Hne : ps <> []) by now rewrite Eps.
  assert (Hf : Forall finite_vel ps).
  { eapply Forall_impl; [exact Hrest|]. intros p [Hu Hv]. now exists 0, 0. }
  unfold thermostat. rewrite scale_fin by done. apply Forall_fmap.
  eapply Forall_impl; [exact Hrest|]. intros p [Hu Hv].
  split; cbn; rewrite ?Hu, ?Hv; js_fin; f_equal; lra.
Qed.

Lemma sumSpeed_R_some (ps : list particle) (lo : R) :
  0 < lo -> Exists (fun p => lo <= speed_R p) ps -> 0 < sumSpeed_R ps.
Proof.
  intros Hlo Hex. induction Hex as [p ps Hp|p ps _ IH]; cbn [sumSpeed_R];
    pose proof (speed_R_nonneg p); pose proof (sumSpeed_R_nonneg ps); lra.
Qed.

(** The mean speed at the end of a frame is decided by the state [cs]
    that the collision pass hands to the thermostat.  From any ensemble
    with finite velocities and radii (whatever the positions), at a
    temperature [T >= 0], the velocities are finite before and after the
    thermostat pass; if the speeds in [cs] are of ordinary magnitude, at
    most [speed_max] and one of them at least [speed_min], the speeds
    [sqrt (vx^2 + vy^2)] at the end of the frame have the arithmetic
    mean [0.5 * sqrt T]; if every particle of [cs] is at rest, every
    particle is at rest at the end of the frame. *)
Theorem updateParticles_mean_speed
    (T : R) (ps cs : list particle) :
  0 <= T -> Forall finite_vel ps -> Forall finite_rad ps ->
  cs = particleCollisions (wallCollisions (integrate ps)) ->
  Forall finite_vel cs
  /\ Forall finite_vel (updateParticles T ps)
  /\ (Exists (fun p => speed_min <= speed_R p) cs ->
      Forall (fun p => speed_R p <= speed_max) cs ->
      meanSpeed_R (updateParticles T ps) = 0.5 * sqrt T)
  /\ (Forall at_rest cs -> Forall at_rest (updateParticles T ps)).
Proof.
  intros HT Hvel Hrad ->. unfold updateParticles.
  set (walled := wallCollisions (integrate ps)).
  assert (Hwv : Forall finite_vel walled)
    by now apply wallCollisions_finite_vel, integrate_finite_vel.
  assert (Hwf : Forall finite_rad walled).
  { eapply finite_rad_of_map; [exact Hrad|].
    unfold walled. now rewrite wallCollisions_radius. }
  destruct (particleCollisions_invariant walled Hwv Hwf) as (Hcv & _).
  split; [done|]. split; [|split].
  - now apply thermostat_finite_vel.
  - intros Hex _. apply thermostat_mean_moving; [done|done|].
    apply (sumSpeed_R_some _ speed_min); [unfold speed_min; lra|done].
  - intros Hrest. now apply thermostat_keeps_rest.
Qed.

Lemma updateParticles_mean_speed_witness :
  meanSpeed_R (updateParticles 100 distant) = 0.5 * sqrt 100.
Proof.
  destruct (updateParticles_mean_speed 100 distant
              (particleCollisions (wallCollisions (integrate distant))))
    as (_ & _ & Hmean & _).
  - lra.
  - repeat constructor; now eexists _, _.
  - repeat constructor; now eexists.
  - reflexivity.
  - assert (Hno : no_overlap (wallCollisions (integrate distant))).
    { rewrite distant_walled. apply no_overlap_two.
      rewrite centreDist_fin.
      replace (dist_R 5 204 305 204) with 300
        by (symmetry; apply dist_R_at; lra).
      cbn [radius]. js_fin. apply js_lt_fin_false. lra. }
    assert (H5 : sqrt (3 * 3 + 4 * 4) = 5).
    { replace (3 * 3 + 4 * 4) with (5 * 5) by lra. apply sqrt_square. lra. }
    assert (H5' : sqrt (3 * 3 + -4 * -4) = 5).
    { replace (3 * 3 + -4 * -4) with (5 * 5) by lra. apply sqrt_square. lra. }
    apply Hmean; rewrite particleCollisions_no_overlap, distant_walled by done.
    + apply Exists_cons_hd. unfold speed_min, speed_R. cbn [vx vy].
      rewrite H5. lra.
    + unfold speed_max, speed_R.
      repeat constructor; cbn [vx vy]; rewrite ?H5, ?H5'; lra.
Defined.
